(** * Mortgage calculator: the amortization engine of [App.py]

    A shallow embedding of [calculate_mortgage], [generate_yearly_schedule]
    and [generate_monthly_schedule], and the properties of the specification
    checked against it.

    Inputs.  The functions receive what the input widgets deliver: numbers
    for the amounts and rates, an [int] for the term, a [date], and [None] or
    a number for the two overrides.  The conversions [float(...)] and
    [int(...)] of the source are then identities and are not written.

    Numbers.  The Python code computes on [float]s, IEEE binary64.  Here
    every money amount and rate is a rational ([Q]) and each operation of
    [Num] stands for the operation of the program at that place; it is
    computed exactly and returned in lowest terms, so that the schedules can
    be evaluated on real inputs.  Rounding, overflow to infinity, the
    [OverflowError] of [**] and NaN are outside the model.  Several
    properties therefore take the size or the sign of a computed amount as a
    hypothesis (the payment covers the interest, the balance is still
    positive) instead of deriving it from the closed form of the
    amortization, which holds in exact arithmetic only.  Integers (years,
    months) are [Z].

    Labels.  [strftime("%b %Y")] is the pair of the abbreviated month name and
    the year, [strftime("%Y")] the year.

    Errors.  Python exceptions are values of [exn]; a computation that may
    raise returns a [result].  The [try ... except Exception] of each public
    function is the place where a [Raise] becomes [None] or the empty
    schedule. *)

From Stdlib Require Import String ZArith QArith Qpower Qabs Lqa Lia List Bool.
Import ListNotations.

Local Open Scope Z_scope.
Local Open Scope Q_scope.

(** ** Exceptions *)

Inductive exn : Type :=
| ZeroDivisionError
| ValueError.

Inductive result (A : Type) : Type :=
| Ok (a : A)
| Raise (e : exn).

Arguments Ok {A} a.
Arguments Raise {A} e.

Definition bind {A B : Type} (m : result A) (k : A -> result B) : result B :=
  match m with
  | Ok a => k a
  | Raise e => Raise e
  end.

Notation "x <- m ;; k" := (bind m (fun x => k))
  (at level 61, m at next level, right associativity).

(** ** Arithmetic of the program *)

Module Num.

Definition add (a b : Q) : Q := Qred (a + b).
Definition sub (a b : Q) : Q := Qred (a - b).
Definition mul (a b : Q) : Q := Qred (a * b).

(** [a / c] where [c] is a non-zero literal of the source ([100], [12]):
    it cannot raise. *)
Definition div_lit (a c : Q) : Q := Qred (a / c).

(** [a / b]: Python raises [ZeroDivisionError] on a zero divisor. *)
Definition div (a b : Q) : result Q :=
  if Qeq_bool b 0 then Raise ZeroDivisionError else Ok (Qred (a / b)).

(** [b ** n] with an [int] exponent; a zero base with a negative exponent
    raises [ZeroDivisionError].  Python also raises [OverflowError] when
    the result leaves the range of [float]; the range is not modelled. *)
Definition pow (b : Q) (n : Z) : result Q :=
  if Qeq_bool b 0 && (n <? 0)%Z then Raise ZeroDivisionError
  else Ok (Qred (b ^ n)).

Definition leb (a b : Q) : bool := Qle_bool a b.
Definition ltb (a b : Q) : bool := negb (Qle_bool b a).
Definition gtb (a b : Q) : bool := ltb b a.

(** [float(i)] for an [int]. *)
Definition of_int (i : Z) : Q := inject_Z i.

End Num.

(** ** Calendar dates ([datetime.date]) *)

Record date : Type := mkDate { date_year : Z; date_month : Z; date_day : Z }.

Definition is_leap (y : Z) : bool :=
  ((y mod 4 =? 0) && (negb (y mod 100 =? 0) || (y mod 400 =? 0)))%Z.

Definition days_in_month (y m : Z) : Z :=
  (if m =? 2 then (if is_leap y then 29 else 28)
   else if (m =? 4) || (m =? 6) || (m =? 9) || (m =? 11) then 30
   else 31)%Z.

(** The check made by the [date] constructor. *)
Definition valid_date (d : date) : bool :=
  ((1 <=? date_year d) && (date_year d <=? 9999) &&
   (1 <=? date_month d) && (date_month d <=? 12) &&
   (1 <=? date_day d) &&
   (date_day d <=? days_in_month (date_year d) (date_month d)))%Z.

Definition make_date (y m d : Z) : result date :=
  if valid_date (mkDate y m d) then Ok (mkDate y m d) else Raise ValueError.

(** [d.replace(year=y)], [d.replace(month=m)], [d.replace(day=dd)] and
    [d.replace(year=y, month=m)]: a new date is built, which raises
    [ValueError] when the fields do not form a calendar date. *)
Definition replace_year (d : date) (y : Z) : result date :=
  make_date y (date_month d) (date_day d).
Definition replace_month (d : date) (m : Z) : result date :=
  make_date (date_year d) m (date_day d).
Definition replace_day (d : date) (dd : Z) : result date :=
  make_date (date_year d) (date_month d) dd.
Definition replace_year_month (d : date) (y m : Z) : result date :=
  make_date y m (date_day d).

Definition month_abbr (m : Z) : string :=
  nth (Z.to_nat (m - 1))
    ["Jan"; "Feb"; "Mar"; "Apr"; "May"; "Jun";
     "Jul"; "Aug"; "Sep"; "Oct"; "Nov"; "Dec"]%string ""%string.

(** [d.strftime("%b %Y")]: the abbreviated month name and the year. *)
Definition strftime_b_Y (d : date) : string * Z :=
  (month_abbr (date_month d), date_year d).

(** [d.strftime("%Y")]: the year. *)
Definition strftime_Y (d : date) : Z := date_year d.

(** ** Inputs and outputs *)

Record LoanInput : Type := mkLoanInput {
  home_value : Q;
  down_payment : Q;
  interest_rate : Q;
  loan_term_years : Z;
  start_date : date;
  property_tax : Q;
  pmi_rate : Q;
  home_insurance : Q;
  hoa_fee : Q;
  override_rate : option Q;
  override_term : option Z
}.

(** The dictionary returned by [calculate_mortgage]. *)
Record MortgageSummary : Type := mkSummary {
  res_loan_amount : Q;
  res_monthly_payment_pi : Q;
  res_total_monthly_payment : Q;
  res_total_interest_paid : Q;
  res_loan_payoff_date : string * Z;
  res_annual_payment : Q;
  res_total_payments : Q;
  res_property_tax_monthly : Q;
  res_pmi_monthly : Q;
  res_home_insurance_monthly : Q;
  res_hoa_fee : Q
}.

Record YearRow : Type := mkYearRow {
  yr_year : Z;
  yr_date : Z;
  yr_principal : Q;
  yr_interest : Q;
  yr_balance : Q
}.

Record MonthRow : Type := mkMonthRow {
  mr_month : Z;
  mr_date : string * Z;
  mr_principal : Q;
  mr_interest : Q;
  mr_balance : Q
}.

(** [range(lo, hi)] *)
Definition range (lo hi : Z) : list Z :=
  map (fun i => (lo + Z.of_nat i)%Z) (seq 0 (Z.to_nat (hi - lo))).

(** ** Resolution of the overrides, shared by the three functions *)

(** [if override_term and override_term > 0: loan_term_years = int(override_term)] *)
Definition effective_term (inp : LoanInput) : Z :=
  match override_term inp with
  | Some t => if negb (t =? 0)%Z && (0 <? t)%Z then t else loan_term_years inp
  | None => loan_term_years inp
  end.

(** [if override_rate is not None and override_rate > 0: ... = float(override_rate) / 100] *)
Definition effective_rate_decimal (inp : LoanInput) : Q :=
  match override_rate inp with
  | Some r => if Num.gtb r 0 then Num.div_lit r 100
              else Num.div_lit (interest_rate inp) 100
  | None => Num.div_lit (interest_rate inp) 100
  end.

(** The fixed payment, written three times in the source with the same
    expression. *)
Definition fixed_payment (loan_amount monthly_rate : Q) (loan_term_months : Z)
  : result Q :=
  if Num.gtb monthly_rate 0 then
    g1 <- Num.pow (Num.add 1 monthly_rate) loan_term_months ;;
    g2 <- Num.pow (Num.add 1 monthly_rate) loan_term_months ;;
    Num.div (Num.mul loan_amount (Num.mul monthly_rate g1)) (Num.sub g2 1)
  else
    Num.div loan_amount (Num.of_int loan_term_months).

(** ** [calculate_mortgage] *)

Definition calculate_mortgage_body (inp : LoanInput) : result MortgageSummary :=
  let loan_term_years := effective_term inp in
  let interest_rate_decimal := effective_rate_decimal inp in
  let loan_term_months := (loan_term_years * 12)%Z in
  let pmi_rate_decimal := Num.div_lit (pmi_rate inp) 100 in
  let loan_amount := Num.sub (home_value inp) (down_payment inp) in
  let monthly_interest_rate := Num.div_lit interest_rate_decimal 12 in
  monthly_payment_principal_interest <-
    fixed_payment loan_amount monthly_interest_rate loan_term_months ;;
  let pmi_monthly :=
    if Num.gtb loan_amount 0
    then Num.div_lit (Num.mul loan_amount pmi_rate_decimal) 12 else 0 in
  let property_tax_monthly :=
    if Num.gtb (property_tax inp) 0
    then Num.div_lit (property_tax inp) 12 else 0 in
  let home_insurance_monthly :=
    if Num.gtb (home_insurance inp) 0
    then Num.div_lit (home_insurance inp) 12 else 0 in
  let total_monthly_payment :=
    Num.add (Num.add (Num.add (Num.add monthly_payment_principal_interest
                                       property_tax_monthly)
                               pmi_monthly)
                     home_insurance_monthly)
            (hoa_fee inp) in
  let total_payments :=
    Num.mul total_monthly_payment (Num.of_int loan_term_months) in
  let total_interest_paid :=
    Num.sub (Num.mul monthly_payment_principal_interest
                     (Num.of_int loan_term_months))
            loan_amount in
  let annual_payment := Num.mul total_monthly_payment 12 in
  loan_payoff_date <-
    replace_year (start_date inp) (date_year (start_date inp) + loan_term_years) ;;
  loan_payoff_date <-
    (if (date_month (start_date inp) =? 2)%Z && (date_day (start_date inp) =? 29)%Z then
       match replace_day loan_payoff_date 28 with
       | Ok d => Ok d
       | Raise ValueError => Ok loan_payoff_date
       | Raise e => Raise e
       end
     else Ok loan_payoff_date) ;;
  Ok {| res_loan_amount := loan_amount;
        res_monthly_payment_pi := monthly_payment_principal_interest;
        res_total_monthly_payment := total_monthly_payment;
        res_total_interest_paid := total_interest_paid;
        res_loan_payoff_date := strftime_b_Y loan_payoff_date;
        res_annual_payment := annual_payment;
        res_total_payments := total_payments;
        res_property_tax_monthly := property_tax_monthly;
        res_pmi_monthly := pmi_monthly;
        res_home_insurance_monthly := home_insurance_monthly;
        res_hoa_fee := hoa_fee inp |}.

(** [try: ... except Exception: st.error(...); return None] *)
Definition calculate_mortgage (inp : LoanInput) : option MortgageSummary :=
  match calculate_mortgage_body inp with
  | Ok results => Some results
  | Raise _ => None
  end.

(** ** [generate_yearly_schedule] *)

(** One pass of the body of [for month in range(12)], after its [break]
    test: the state is (balance, yearly_interest, yearly_principal). *)
Definition year_month_step (monthly_rate monthly_payment_pi : Q)
  (st : Q * Q * Q) : Q * Q * Q :=
  let '(balance, yearly_interest, yearly_principal) := st in
  let interest_payment := Num.mul balance monthly_rate in
  let principal_payment := Num.sub monthly_payment_pi interest_payment in
  let balance := Num.sub balance principal_payment in
  let '(principal_payment, balance) :=
    if Num.ltb balance 0 then (Num.add principal_payment balance, 0)
    else (principal_payment, balance) in
  (balance,
   Num.add yearly_interest interest_payment,
   Num.add yearly_principal principal_payment).

Fixpoint year_months (monthly_rate monthly_payment_pi : Q) (months : list Z)
  (st : Q * Q * Q) : Q * Q * Q :=
  match months with
  | [] => st
  | _ :: rest =>
      if Num.leb (fst (fst st)) 0 then st
      else year_months monthly_rate monthly_payment_pi rest
             (year_month_step monthly_rate monthly_payment_pi st)
  end.

(** [for remaining_year in range(year + 1, loan_term_years + 1)] *)
Fixpoint fill_remaining (start_date : date) (years : list Z)
  (schedule_data : list YearRow) : result (list YearRow) :=
  match years with
  | [] => Ok schedule_data
  | remaining_year :: rest =>
      d <- replace_year start_date (date_year start_date + remaining_year - 1) ;;
      fill_remaining start_date rest
        (schedule_data ++
           [ {| yr_year := remaining_year; yr_date := strftime_Y d;
                yr_principal := 0; yr_interest := 0; yr_balance := 0 |} ])
  end.

(** [for year in range(1, loan_term_years + 1)] *)
Fixpoint yearly_loop (monthly_rate monthly_payment_pi : Q) (start_date : date)
  (loan_term_years : Z) (years : list Z) (balance : Q)
  (schedule_data : list YearRow) : result (list YearRow) :=
  match years with
  | [] => Ok schedule_data
  | year :: rest =>
      let '(balance, yearly_interest, yearly_principal) :=
        year_months monthly_rate monthly_payment_pi (range 0 12) (balance, 0, 0) in
      d <- replace_year start_date (date_year start_date + year - 1) ;;
      let schedule_data :=
        schedule_data ++
          [ {| yr_year := year; yr_date := strftime_Y d;
               yr_principal := yearly_principal; yr_interest := yearly_interest;
               yr_balance := balance |} ] in
      if Num.leb balance 0 then
        fill_remaining start_date (range (year + 1) (loan_term_years + 1))
          schedule_data
      else
        yearly_loop monthly_rate monthly_payment_pi start_date loan_term_years
          rest balance schedule_data
  end.

Definition generate_yearly_schedule_body (inp : LoanInput)
  : result (list YearRow) :=
  match calculate_mortgage inp with
  | None => Ok []
  | Some _ =>
      let loan_amount := Num.sub (home_value inp) (down_payment inp) in
      let annual_interest_rate := effective_rate_decimal inp in
      let loan_term_years := effective_term inp in
      let monthly_rate := Num.div_lit annual_interest_rate 12 in
      let loan_term_months := (loan_term_years * 12)%Z in
      monthly_payment_pi <-
        fixed_payment loan_amount monthly_rate loan_term_months ;;
      yearly_loop monthly_rate monthly_payment_pi (start_date inp)
        loan_term_years (range 1 (loan_term_years + 1)) loan_amount []
  end.

(** An empty [DataFrame] is the empty list of rows. *)
Definition generate_yearly_schedule (inp : LoanInput) : list YearRow :=
  match generate_yearly_schedule_body inp with
  | Ok schedule_data => schedule_data
  | Raise _ => []
  end.

(** ** [generate_monthly_schedule] *)

Definition months_to_show (total_months : Z) : list Z :=
  range 1 (Z.min 13 (total_months + 1)) ++
  (if (12 <? total_months)%Z
   then range (Z.max (total_months - 11) 13) (total_months + 1)
   else []).

(** [month in months_to_show] *)
Definition in_list (m : Z) (l : list Z) : bool := existsb (Z.eqb m) l.

(** "Move to next month" *)
Definition next_month (current_date : date) : result date :=
  if (date_month current_date =? 12)%Z
  then replace_year_month current_date (date_year current_date + 1) 1
  else replace_month current_date (date_month current_date + 1).

(** [for month in range(1, total_months + 1)] *)
Fixpoint monthly_loop (monthly_rate monthly_payment_pi : Q) (show : list Z)
  (months : list Z) (balance : Q) (current_date : date)
  (schedule_data : list MonthRow) : result (list MonthRow) :=
  match months with
  | [] => Ok schedule_data
  | month :: rest =>
      if negb (in_list month show) then
        let interest_payment := Num.mul balance monthly_rate in
        let principal_payment := Num.sub monthly_payment_pi interest_payment in
        let balance := Num.sub balance principal_payment in
        let balance := if Num.ltb balance 0 then 0 else balance in
        monthly_loop monthly_rate monthly_payment_pi show rest balance
          current_date schedule_data
      else
        let interest_payment := Num.mul balance monthly_rate in
        let principal_payment := Num.sub monthly_payment_pi interest_payment in
        let ending_balance := Num.sub balance principal_payment in
        let '(principal_payment, ending_balance) :=
          if Num.ltb ending_balance 0
          then (Num.add principal_payment ending_balance, 0)
          else (principal_payment, ending_balance) in
        let schedule_data :=
          schedule_data ++
            [ {| mr_month := month; mr_date := strftime_b_Y current_date;
                 mr_principal := principal_payment;
                 mr_interest := interest_payment;
                 mr_balance := ending_balance |} ] in
        let balance := ending_balance in
        current_date <- next_month current_date ;;
        if Num.leb balance 0 then Ok schedule_data
        else monthly_loop monthly_rate monthly_payment_pi show rest balance
               current_date schedule_data
  end.

Definition generate_monthly_schedule_body (inp : LoanInput)
  : result (list MonthRow) :=
  match calculate_mortgage inp with
  | None => Ok []
  | Some _ =>
      let loan_amount := Num.sub (home_value inp) (down_payment inp) in
      let annual_interest_rate := effective_rate_decimal inp in
      let loan_term_years := effective_term inp in
      let monthly_rate := Num.div_lit annual_interest_rate 12 in
      let loan_term_months := (loan_term_years * 12)%Z in
      monthly_payment_pi <-
        fixed_payment loan_amount monthly_rate loan_term_months ;;
      let total_months := loan_term_months in
      monthly_loop monthly_rate monthly_payment_pi (months_to_show total_months)
        (range 1 (total_months + 1)) loan_amount (start_date inp) []
  end.

Definition generate_monthly_schedule (inp : LoanInput) : list MonthRow :=
  match generate_monthly_schedule_body inp with
  | Ok schedule_data => schedule_data
  | Raise _ => []
  end.

(** ** Vocabulary of the specification *)

(** [loan_amount] and [monthly_rate] as the schedule generators compute them. *)
Definition loan_amount_of (inp : LoanInput) : Q :=
  Num.sub (home_value inp) (down_payment inp).

Definition monthly_rate_of (inp : LoanInput) : Q :=
  Num.div_lit (effective_rate_decimal inp) 12.

Definition total_months_of (inp : LoanInput) : Z :=
  (effective_term inp * 12)%Z.

(** The balance update of one month, as the monthly loop performs it on a
    month outside the window. *)
Definition next_balance (monthly_rate monthly_payment_pi balance : Q) : Q :=
  let interest_payment := Num.mul balance monthly_rate in
  let principal_payment := Num.sub monthly_payment_pi interest_payment in
  let balance := Num.sub balance principal_payment in
  if Num.ltb balance 0 then 0 else balance.

(** The balance after [k] months of the recurrence. *)
Fixpoint balance_after (monthly_rate monthly_payment_pi loan_amount : Q)
  (k : nat) : Q :=
  match k with
  | O => loan_amount
  | S k' =>
      next_balance monthly_rate monthly_payment_pi
        (balance_after monthly_rate monthly_payment_pi loan_amount k')
  end.

(** The row appended by the monthly loop for a month inside the window. *)
Definition monthly_row (monthly_rate monthly_payment_pi : Q) (month : Z)
  (current_date : date) (balance : Q) : MonthRow :=
  let interest_payment := Num.mul balance monthly_rate in
  let principal_payment := Num.sub monthly_payment_pi interest_payment in
  let ending_balance := Num.sub balance principal_payment in
  let '(principal_payment, ending_balance) :=
    if Num.ltb ending_balance 0
    then (Num.add principal_payment ending_balance, 0)
    else (principal_payment, ending_balance) in
  {| mr_month := month; mr_date := strftime_b_Y current_date;
     mr_principal := principal_payment; mr_interest := interest_payment;
     mr_balance := ending_balance |}.

(** The runs of the monthly loop that end without an exception:
    [monthly_run r p show months balance date rows] holds when the loop,
    entered on [months] with [balance] and [date], appends [rows]. *)
Inductive monthly_run (r p : Q) (show : list Z)
  : list Z -> Q -> date -> list MonthRow -> Prop :=
| run_done (balance : Q) (d : date) :
    monthly_run r p show [] balance d []
| run_skip (month : Z) (rest : list Z) (balance : Q) (d : date)
    (rows : list MonthRow) :
    in_list month show = false ->
    monthly_run r p show rest (next_balance r p balance) d rows ->
    monthly_run r p show (month :: rest) balance d rows
| run_payoff (month : Z) (rest : list Z) (balance : Q) (d d' : date) :
    in_list month show = true ->
    next_month d = Ok d' ->
    Num.leb (next_balance r p balance) 0 = true ->
    monthly_run r p show (month :: rest) balance d
      [monthly_row r p month d balance]
| run_row (month : Z) (rest : list Z) (balance : Q) (d d' : date)
    (rows : list MonthRow) :
    in_list month show = true ->
    next_month d = Ok d' ->
    Num.leb (next_balance r p balance) 0 = false ->
    monthly_run r p show rest (next_balance r p balance) d' rows ->
    monthly_run r p show (month :: rest) balance d
      (monthly_row r p month d balance :: rows).

(** Months elapsed since the start of year 0. *)
Definition month_index (d : date) : Z :=
  (date_year d * 12 + (date_month d - 1))%Z.

(** A date that the month step can advance [k] times: its day exists in
    every month and the year stays within [date.max]. *)
Definition can_advance (d : date) (k : Z) : Prop :=
  valid_date d = true /\ (date_day d <= 28)%Z /\
  (month_index d + k <= 9999 * 12 + 11)%Z.

(** A row of the yearly schedule after payoff. *)
Definition zero_row (row : YearRow) : Prop :=
  yr_principal row = 0 /\ yr_interest row = 0 /\ yr_balance row = 0.

(** Every row at which the balance has reached zero is followed by zero
    rows only. *)
Fixpoint zero_padded (rows : list YearRow) : Prop :=
  match rows with
  | [] => True
  | row :: rest =>
      (yr_balance row <= 0 -> Forall zero_row rest) /\ zero_padded rest
  end.

(** "x is v up to rounding": x rounds to v at two decimals. *)
Definition approx (x v : Q) : Prop := Qabs (x - v) <= 0.005.

Definition approxb (x v : Q) : bool := Qle_bool (Qabs (x - v)) 0.005.



(** The date [k] months after [d], by the program's own month step. *)
Fixpoint advance_months (d : date) (k : nat) : result date :=
  match k with
  | O => Ok d
  | S k' => d' <- advance_months d k' ;; next_month d'
  end.

(** The months of a list up to and including the first one at which the
    loan is paid off. *)
Fixpoint until_paid (paid : Z -> bool) (months : list Z) : list Z :=
  match months with
  | [] => []
  | m :: rest => if paid m then [m] else m :: until_paid paid rest
  end.

(** Inputs of the examples: the add-ons are those of the specification's
    example (tax 3000, no PMI, insurance 1500, no HOA fee, no override). *)
Definition loan (home down rate : Q) (term : Z) (start : date) : LoanInput :=
  {| home_value := home; down_payment := down; interest_rate := rate;
     loan_term_years := term; start_date := start;
     property_tax := 3000; pmi_rate := 0; home_insurance := 1500;
     hoa_fee := 0; override_rate := None; override_term := None |}.

Definition jan_15_2024 : date := mkDate 2024 1 15.
Definition feb_29_2024 : date := mkDate 2024 2 29.

Definition spec_example : LoanInput := loan 400000 80000 7 30 jan_15_2024.
Definition three_year_loan : LoanInput := loan 400000 80000 7 3 jan_15_2024.
Definition leap_day_one_year : LoanInput := loan 400000 80000 7 1 feb_29_2024.
Definition leap_day_four_years : LoanInput := loan 400000 80000 7 4 feb_29_2024.
Definition negative_term : LoanInput := loan 400000 80000 7 (-1) jan_15_2024.
Definition zero_term : LoanInput := loan 400000 80000 7 0 jan_15_2024.
Definition zero_loan : LoanInput := loan 80000 80000 7 1 jan_15_2024.
Definition interest_free : LoanInput := loan 400000 80000 0 3 jan_15_2024.

(** ** Vocabulary of the further properties *)

(** A row of the yearly schedule that follows the monthly recurrence: it is
    labelled with the year of the start date advanced by the years before
    it, its balance is the balance after twelve months per year, its
    principal is what the balance fell by during the year, and twelve
    payments were made. *)
Definition yearly_row_follows (r p L : Q) (sd : date) (row : YearRow) : Prop :=
  let y := Z.to_nat (yr_year row) in
  yr_date row = (date_year sd + yr_year row - 1)%Z /\
  yr_balance row = balance_after r p L (12 * y) /\
  yr_principal row == balance_after r p L (12 * (y - 1)) - yr_balance row /\
  yr_principal row + yr_interest row == 12 * p.

(** ** The caller: the input widgets and the "Calculate" handler *)

(** The same input with the overrides folded into the base fields. *)
Definition resolve_overrides (inp : LoanInput) : LoanInput :=
  {| home_value := home_value inp;
     down_payment := down_payment inp;
     interest_rate :=
       match override_rate inp with
       | Some r => if Num.gtb r 0 then r else interest_rate inp
       | None => interest_rate inp
       end;
     loan_term_years := effective_term inp;
     start_date := start_date inp;
     property_tax := property_tax inp;
     pmi_rate := pmi_rate inp;
     home_insurance := home_insurance inp;
     hoa_fee := hoa_fee inp;
     override_rate := None;
     override_term := None |}.

(** The same loan with other add-ons. *)
Definition with_add_ons (inp : LoanInput) (tax pmi insurance hoa : Q)
  : LoanInput :=
  {| home_value := home_value inp;
     down_payment := down_payment inp;
     interest_rate := interest_rate inp;
     loan_term_years := loan_term_years inp;
     start_date := start_date inp;
     property_tax := tax;
     pmi_rate := pmi;
     home_insurance := insurance;
     hoa_fee := hoa;
     override_rate := override_rate inp;
     override_term := override_term inp |}.

(** The values of the widgets of the page when the button is pressed. *)
Record Widgets : Type := mkWidgets {
  w_override_rate : Q;
  w_override_term : Z;
  w_home_value : Q;
  w_down_payment : Q;
  w_interest_rate : Q;
  w_loan_term_years : Z;
  w_start_date : date;
  w_property_tax : Q;
  w_pmi_rate : Q;
  w_home_insurance : Q;
  w_hoa_fee : Q
}.

(** What the widgets guarantee: the [min_value] of each [st.number_input],
    and a calendar date from [st.date_input]. *)
Definition widgets_in_range (w : Widgets) : Prop :=
  0 <= w_override_rate w /\ (0 <= w_override_term w)%Z /\
  0 <= w_home_value w /\ 0 <= w_down_payment w /\
  0 <= w_interest_rate w /\ (1 <= w_loan_term_years w)%Z /\
  valid_date (w_start_date w) = true /\
  0 <= w_property_tax w /\ 0 <= w_pmi_rate w /\
  0 <= w_home_insurance w /\ 0 <= w_hoa_fee w.

(** [final_override_rate = override_rate if override_rate > 0 else None] *)
Definition final_override_rate (w : Widgets) : option Q :=
  if Num.gtb (w_override_rate w) 0 then Some (w_override_rate w) else None.

(** [final_override_term = override_term if override_term > 0 else None] *)
Definition final_override_term (w : Widgets) : option Z :=
  if (0 <? w_override_term w)%Z then Some (w_override_term w) else None.

(** The arguments the handler passes to the three functions. *)
Definition handler_input (w : Widgets) : LoanInput :=
  {| home_value := w_home_value w;
     down_payment := w_down_payment w;
     interest_rate := w_interest_rate w;
     loan_term_years := w_loan_term_years w;
     start_date := w_start_date w;
     property_tax := w_property_tax w;
     pmi_rate := w_pmi_rate w;
     home_insurance := w_home_insurance w;
     hoa_fee := w_hoa_fee w;
     override_rate := final_override_rate w;
     override_term := final_override_term w |}.

(** [if st.button("Calculate")]: the summary and, [if results], the two
    schedules that are handed to the page. *)
Definition on_calculate (w : Widgets)
  : option (MortgageSummary * list YearRow * list MonthRow) :=
  match calculate_mortgage (handler_input w) with
  | Some results =>
      Some (results,
            generate_yearly_schedule (handler_input w),
            generate_monthly_schedule (handler_input w))
  | None => None
  end.

Definition widgets_example : Widgets :=
  mkWidgets 0 0 400000 80000 7 3 jan_15_2024 3000 0 1500 0.

Definition one_year_loan : LoanInput := loan 400000 80000 7 1 jan_15_2024.

(** * Properties *)

(** ** The arithmetic operations are the exact ones *)

Lemma add_eq (a b : Q) : Num.add a b == a + b.
Proof. apply Qred_correct. Qed.

Lemma sub_eq (a b : Q) : Num.sub a b == a - b.
Proof. apply Qred_correct. Qed.

Lemma mul_eq (a b : Q) : Num.mul a b == a * b.
Proof. apply Qred_correct. Qed.

Lemma div_lit_eq (a c : Q) : Num.div_lit a c == a / c.
Proof. apply Qred_correct. Qed.

Lemma leb_iff (a b : Q) : Num.leb a b = true <-> a <= b.
Proof. apply Qle_bool_iff. Qed.

Lemma ltb_iff (a b : Q) : Num.ltb a b = true <-> a < b.
Proof.
  unfold Num.ltb. rewrite negb_true_iff.
  destruct (Qle_bool b a) eqn:E.
  - apply Qle_bool_iff in E. split; [discriminate | intro H].
    exfalso. apply (Qlt_not_le _ _ H E).
  - split; [intros _ | reflexivity].
    apply Qnot_le_lt. intro H. apply Qle_bool_iff in H. congruence.
Qed.

Lemma leb_false_iff (a b : Q) : Num.leb a b = false <-> b < a.
Proof.
  rewrite <- ltb_iff. unfold Num.ltb, Num.leb.
  destruct (Qle_bool a b); simpl; split; congruence.
Qed.

Lemma ltb_false_iff (a b : Q) : Num.ltb a b = false <-> b <= a.
Proof.
  rewrite <- leb_iff. unfold Num.ltb, Num.leb.
  destruct (Qle_bool b a); simpl; split; congruence.
Qed.

Lemma gtb_iff (a b : Q) : Num.gtb a b = true <-> b < a.
Proof. apply ltb_iff. Qed.

Lemma gtb_false_iff (a b : Q) : Num.gtb a b = false <-> a <= b.
Proof. apply ltb_false_iff. Qed.

Lemma div_ok (a b : Q) : ~ b == 0 -> Num.div a b = Ok (Qred (a / b)).
Proof.
  intro H. unfold Num.div. destruct (Qeq_bool b 0) eqn:E; [|reflexivity].
  apply Qeq_bool_eq in E. contradiction.
Qed.

Lemma div_zero (a b : Q) : b == 0 -> Num.div a b = Raise ZeroDivisionError.
Proof.
  intro H. unfold Num.div. now rewrite (Qeq_eq_bool _ _ H).
Qed.

Lemma div_inv (a b q : Q) : Num.div a b = Ok q -> ~ b == 0 /\ q == a / b.
Proof.
  unfold Num.div. destruct (Qeq_bool b 0) eqn:E; [discriminate|].
  intro H. assert (Hq : q = Qred (a / b)) by congruence. split.
  - now apply Qeq_bool_neq.
  - rewrite Hq. apply Qred_correct.
Qed.

Lemma pow_ok (b : Q) (n : Z) : 0 < b -> Num.pow b n = Ok (Qred (b ^ n)).
Proof.
  intro H. unfold Num.pow. destruct (Qeq_bool b 0) eqn:E; [|reflexivity].
  apply Qeq_bool_eq in E. rewrite E in H. discriminate.
Qed.

Ltac num_norm :=
  unfold Num.of_int in *;
  repeat first [ rewrite add_eq | rewrite sub_eq | rewrite mul_eq
               | rewrite div_lit_eq | rewrite Qred_correct ].

(** ** The balance recurrence *)

Lemma next_balance_cases (r p B : Q) :
  (B - (p - B * r) < 0 /\ next_balance r p B = 0) \/
  (0 <= B - (p - B * r) /\ next_balance r p B == B - (p - B * r)).
Proof.
  unfold next_balance.
  destruct (Num.ltb (Num.sub B (Num.sub p (Num.mul B r))) 0) eqn:E.
  - left. apply ltb_iff in E. revert E. num_norm. auto.
  - right. apply ltb_false_iff in E. revert E. num_norm. intro E.
    split; [exact E | reflexivity].
Qed.



Section Amortization.

(** A loan of [L] at monthly rate [r >= 0] with payment [p] over [n]
    months.  [W] and [D k] are the weights of the closed form of the
    balance: after [k] months the balance is [L * D k / W]. *)
Variables (L r p W : Q) (n : nat) (D : nat -> Q).
Hypothesis r_nonneg : 0 <= r.
Hypothesis W_pos : 0 < W.
Hypothesis D_0 : D 0 == W.
Hypothesis D_step :
  forall (B : Q) (k : nat),
    B * W == L * D k -> (B - (p - B * r)) * W == L * D (S k).
Hypothesis D_pos : forall k, (k < n)%nat -> 0 < D k.
Hypothesis D_n : D n == 0.
Hypothesis D_decr : D 1 <= D 0.

Lemma payment_covers_interest : 0 <= L -> L * r <= p.
Proof.
  intro HL.
  assert (H : (L - (p - L * r)) * W == L * D 1)
    by (apply D_step; rewrite D_0; reflexivity).
  assert (H1 : L * D 1 <= L * W) by (rewrite <- D_0; nra).
  nra.
Qed.

Lemma balance_after_closed_form :
  0 < L -> forall k, (k <= n)%nat ->
  balance_after r p L k * W == L * D k.
Proof.
  intros HL. induction k as [|k IH]; intro Hk.
  - simpl. rewrite D_0. reflexivity.
  - assert (Hk' : (k <= n)%nat) by lia. specialize (IH Hk').
    pose proof (D_step _ _ IH) as Hs. simpl.
    assert (HD : 0 <= D (S k)).
    { destruct (Nat.eq_dec (S k) n) as [->|Hne].
      - rewrite D_n. apply Qle_refl.
      - apply Qlt_le_weak, D_pos. lia. }
    destruct (next_balance_cases r p (balance_after r p L k))
      as [[Hneg _] | [_ ->]]; [|exact Hs].
    exfalso. nra.
Qed.

Lemma balance_after_positive :
  0 < L -> forall k, (k < n)%nat -> 0 < balance_after r p L k.
Proof.
  intros HL k Hk.
  assert (H : balance_after r p L k * W == L * D k)
    by (apply balance_after_closed_form; [exact HL | lia]).
  pose proof (D_pos k Hk). nra.
Qed.

End Amortization.

(** ** The payment of the program satisfies the hypotheses of the section *)

Lemma fixed_payment_inv (L r p : Q) (T : Z) :
  fixed_payment L r T = Ok p ->
  (0 < r /\ ~ (1 + r) ^ T - 1 == 0 /\
   p == L * (r * (1 + r) ^ T) / ((1 + r) ^ T - 1)) \/
  (r <= 0 /\ ~ inject_Z T == 0 /\ p == L / inject_Z T).
Proof.
  unfold fixed_payment. destruct (Num.gtb r 0) eqn:E; intro H.
  - apply gtb_iff in E. left.
    assert (Hb : 0 < Num.add 1 r) by (rewrite add_eq; lra).
    rewrite (pow_ok _ _ Hb) in H. cbn [bind] in H.
    apply div_inv in H. destruct H as [Hnz Hp].
    revert Hnz Hp. num_norm. intros Hnz Hp.
    repeat split; [exact E | exact Hnz | exact Hp].
  - apply gtb_false_iff in E. right.
    apply div_inv in H. destruct H as [Hnz Hp].
    repeat split; [exact E | exact Hnz | exact Hp].
Qed.

Lemma Qpower_succ_nat (g : Q) (k : nat) :
  0 < g -> g ^ Z.of_nat (S k) == g ^ Z.of_nat k * g.
Proof.
  intro Hg. rewrite Nat2Z.inj_succ, <- Z.add_1_r.
  rewrite Qpower_plus by lra. rewrite Qpower_1_r. reflexivity.
Qed.

Lemma closed_form_exists (L r p : Q) (T : Z) :
  0 <= r -> (1 <= T)%Z -> fixed_payment L r T = Ok p ->
  exists (W : Q) (D : nat -> Q),
    0 < W /\ D O == W /\
    (forall (B : Q) (k : nat),
        B * W == L * D k -> (B - (p - B * r)) * W == L * D (S k)) /\
    (forall k, (k < Z.to_nat T)%nat -> 0 < D k) /\
    D (Z.to_nat T) == 0 /\ D 1%nat <= D O.
Proof.
  intros Hr HT Hp. apply fixed_payment_inv in Hp.
  destruct Hp as [(Hr0 & Hnz & Hp) | (Hr0 & Hnz & Hp)].
  - set (g := 1 + r) in *. assert (Hg : 1 < g) by (unfold g; lra).
    set (G := g ^ T) in *.
    assert (HG : 1 < G) by (apply Qpower_1_lt; [exact Hg | lia]).
    assert (Hlt : forall k, (k < Z.to_nat T)%nat -> g ^ Z.of_nat k < G)
      by (intros k Hk; apply Qpower_lt_compat_l; [lia | exact Hg]).
    assert (HGn : g ^ Z.of_nat (Z.to_nat T) == G)
      by (rewrite Z2Nat.id by lia; reflexivity).
    clearbody G.
    exists (G - 1), (fun k => G - g ^ Z.of_nat k).
    assert (HpW : p * (G - 1) == L * r * G) by (rewrite Hp; field; exact Hnz).
    split; [|split; [|split; [|split; [|split]]]]; cbv beta.
    + lra.
    + change (Z.of_nat 0) with 0%Z. rewrite Qpower_0_r. reflexivity.
    + intros B k HB.
      transitivity ((B * (G - 1)) * (1 + r) - p * (G - 1)); [ring|].
      rewrite HB, HpW, Qpower_succ_nat by lra.
      generalize (g ^ Z.of_nat k). intro X. unfold g. ring.
    + intros k Hk. specialize (Hlt k Hk). lra.
    + rewrite HGn. lra.
    + change (Z.of_nat 0) with 0%Z. change (Z.of_nat 1) with 1%Z.
      rewrite Qpower_0_r, Qpower_1_r. lra.
  - assert (Hr1 : r == 0) by lra.
    assert (HT0 : 0 < inject_Z T).
    { change 0 with (inject_Z 0). rewrite <- Zlt_Qlt. lia. }
    exists (inject_Z T), (fun k => inject_Z T - inject_Z (Z.of_nat k)).
    assert (HpW : p * inject_Z T == L) by (rewrite Hp; field; exact Hnz).
    split; [|split; [|split; [|split; [|split]]]]; cbv beta.
    + exact HT0.
    + change (inject_Z (Z.of_nat 0)) with 0. lra.
    + intros B k HB.
      transitivity (B * inject_Z T - p * inject_Z T + B * r * inject_Z T); [ring|].
      rewrite HB, HpW, Hr1, Nat2Z.inj_succ, <- Z.add_1_r, inject_Z_plus.
      change (inject_Z 1) with 1. ring.
    + intros k Hk.
      assert (inject_Z (Z.of_nat k) < inject_Z T); [|lra].
      rewrite <- Zlt_Qlt. lia.
    + rewrite Z2Nat.id by lia. lra.
    + assert (inject_Z (Z.of_nat 0) <= inject_Z (Z.of_nat 1)); [|lra].
      rewrite <- Zle_Qle. lia.
Qed.

Lemma balance_stays_positive (L r p : Q) (T : Z) (k : nat) :
  0 <= r -> (1 <= T)%Z -> fixed_payment L r T = Ok p ->
  0 < L -> (k < Z.to_nat T)%nat -> 0 < balance_after r p L k.
Proof.
  intros Hr HT Hp HL Hk.
  destruct (closed_form_exists L r p T Hr HT Hp)
    as (W & D & HW & H0 & Hs & Hpos & Hn & Hd).
  exact (balance_after_positive L r p W (Z.to_nat T) D HW H0 Hs Hpos Hn HL k Hk).
Qed.

(** In exact arithmetic the payment of the formula always covers the
    interest of the first month.  Rounding can break this when the two are
    within an ulp of each other, so the properties of the balances take it
    as a hypothesis. *)
Lemma exact_payment_covers_interest (L r p : Q) (T : Z) :
  0 <= r -> (1 <= T)%Z -> fixed_payment L r T = Ok p -> 0 <= L ->
  0 <= Num.sub p (Num.mul L r).
Proof.
  intros Hr HT Hp HL.
  destruct (closed_form_exists L r p T Hr HT Hp)
    as (W & D & HW & H0 & Hs & Hpos & Hn & Hd).
  pose proof (payment_covers_interest L r p W D HW H0 Hs Hd HL) as H.
  num_norm. lra.
Qed.

Lemma div_lit_100 (a : Q) : Num.div_lit a 100 == a * (1 # 100).
Proof. rewrite div_lit_eq. field. Qed.

Lemma div_lit_12 (a : Q) : Num.div_lit a 12 == a * (1 # 12).
Proof. rewrite div_lit_eq. field. Qed.

Lemma monthly_rate_nonneg (inp : LoanInput) :
  0 <= interest_rate inp -> 0 <= monthly_rate_of inp.
Proof.
  intro H. unfold monthly_rate_of, effective_rate_decimal.
  destruct (override_rate inp) as [o|].
  - destruct (Num.gtb o 0) eqn:E.
    + apply gtb_iff in E. rewrite div_lit_12, div_lit_100. lra.
    + rewrite div_lit_12, div_lit_100. lra.
  - rewrite div_lit_12, div_lit_100. lra.
Qed.

(** ** Ranges and the sampling window *)

Lemma range_nil (lo hi : Z) : (hi <= lo)%Z -> range lo hi = [].
Proof.
  intro H. unfold range. replace (Z.to_nat (hi - lo)) with O by lia. reflexivity.
Qed.

Lemma range_cons (lo hi : Z) :
  (lo < hi)%Z -> range lo hi = lo :: range (lo + 1) hi.
Proof.
  intro H. unfold range.
  replace (Z.to_nat (hi - lo)) with (S (Z.to_nat (hi - (lo + 1)))) by lia.
  cbn [seq map]. f_equal; [lia|].
  rewrite <- seq_shift, map_map. apply map_ext. intro i. lia.
Qed.

Lemma length_range (lo hi : Z) : length (range lo hi) = Z.to_nat (hi - lo).
Proof. unfold range. now rewrite length_map, length_seq. Qed.

Lemma In_range (lo hi m : Z) : In m (range lo hi) <-> (lo <= m < hi)%Z.
Proof.
  unfold range. rewrite in_map_iff. split.
  - intros (i & <- & Hi). apply in_seq in Hi. lia.
  - intro H. exists (Z.to_nat (m - lo)). split; [lia|]. apply in_seq. lia.
Qed.

Lemma range_app (lo mid hi : Z) :
  (lo <= mid <= hi)%Z -> range lo hi = range lo mid ++ range mid hi.
Proof.
  remember (Z.to_nat (mid - lo)) as n eqn:Hn.
  revert lo Hn. induction n as [|n IH]; intros lo Hn H.
  - replace mid with lo by lia. now rewrite (range_nil lo lo) by lia.
  - rewrite (range_cons lo hi), (range_cons lo mid) by lia.
    cbn [app]. f_equal. apply IH; lia.
Qed.

Lemma NoDup_range (lo hi : Z) : NoDup (range lo hi).
Proof.
  remember (Z.to_nat (hi - lo)) as n eqn:Hn.
  revert lo Hn. induction n as [|n IH]; intros lo Hn.
  - rewrite range_nil by lia. constructor.
  - rewrite range_cons by lia. constructor.
    + rewrite In_range. lia.
    + apply IH. lia.
Qed.

Lemma in_list_iff (m : Z) (l : list Z) : in_list m l = true <-> In m l.
Proof.
  unfold in_list. rewrite existsb_exists. split.
  - intros (x & Hx & E). apply Z.eqb_eq in E. now subst.
  - intro H. exists m. split; [exact H | apply Z.eqb_refl].
Qed.

Lemma filter_all {A : Type} (f : A -> bool) (l : list A) :
  (forall x, In x l -> f x = true) -> filter f l = l.
Proof.
  induction l as [|a l IH]; intro H; [reflexivity|].
  cbn [filter]. rewrite (H a) by (left; reflexivity).
  f_equal. apply IH. intros x Hx. apply H. now right.
Qed.

Lemma filter_none {A : Type} (f : A -> bool) (l : list A) :
  (forall x, In x l -> f x = false) -> filter f l = [].
Proof.
  induction l as [|a l IH]; intro H; [reflexivity|].
  cbn [filter]. rewrite (H a) by (left; reflexivity).
  apply IH. intros x Hx. apply H. now right.
Qed.

Lemma In_months_to_show (T m : Z) :
  In m (months_to_show T) <->
  (1 <= m <= Z.min 12 T)%Z \/ (12 < T /\ T - 11 <= m <= T /\ 13 <= m)%Z.
Proof.
  unfold months_to_show. rewrite in_app_iff, In_range.
  destruct (12 <? T)%Z eqn:E.
  - apply Z.ltb_lt in E. rewrite In_range. lia.
  - apply Z.ltb_ge in E. cbn [In]. lia.
Qed.

(** The window, as a predicate on the months of the term: the months the
    loop shows are the window itself. *)
Lemma window_is_filtered_range (T : Z) :
  filter (fun m => in_list m (months_to_show T)) (range 1 (T + 1)) =
  months_to_show T.
Proof.
  destruct (12 <? T)%Z eqn:E.
  - apply Z.ltb_lt in E.
    rewrite (range_app 1 13 (T + 1)) by lia.
    rewrite (range_app 13 (Z.max (T - 11) 13) (T + 1)) by lia.
    rewrite !filter_app.
    rewrite filter_all, filter_none, filter_all.
    + unfold months_to_show. apply Z.ltb_lt in E. rewrite E.
      replace (Z.min 13 (T + 1)) with 13%Z by lia. reflexivity.
    + intros m Hm. apply in_list_iff, In_months_to_show.
      apply In_range in Hm. lia.
    + intros m Hm. apply In_range in Hm.
      destruct (in_list m (months_to_show T)) eqn:F; [|reflexivity].
      apply in_list_iff, In_months_to_show in F. lia.
    + intros m Hm. apply in_list_iff, In_months_to_show.
      apply In_range in Hm. lia.
  - pose proof E as E'. apply Z.ltb_ge in E'.
    rewrite filter_all.
    + unfold months_to_show. rewrite E, app_nil_r.
      replace (Z.min 13 (T + 1)) with (T + 1)%Z by lia. reflexivity.
    + intros m Hm. apply in_list_iff, In_months_to_show.
      apply In_range in Hm. lia.
Qed.

Lemma NoDup_months_to_show (T : Z) : NoDup (months_to_show T).
Proof.
  rewrite <- window_is_filtered_range. apply NoDup_filter, NoDup_range.
Qed.

Lemma length_months_to_show (T : Z) :
  (0 <= T)%Z ->
  Z.of_nat (length (months_to_show T)) =
  (Z.min 12 T + Z.max 0 (Z.min (T - 12) 12))%Z.
Proof.
  intro H. unfold months_to_show. rewrite length_app, length_range.
  destruct (12 <? T)%Z eqn:E.
  - apply Z.ltb_lt in E. rewrite length_range. lia.
  - apply Z.ltb_ge in E. cbn [length]. lia.
Qed.

(** ** The monthly loop *)

Lemma monthly_row_month (r p : Q) (m : Z) (d : date) (B : Q) :
  mr_month (monthly_row r p m d B) = m.
Proof. unfold monthly_row. now destruct (Num.ltb _ 0). Qed.

Lemma monthly_row_date (r p : Q) (m : Z) (d : date) (B : Q) :
  mr_date (monthly_row r p m d B) = strftime_b_Y d.
Proof. unfold monthly_row. now destruct (Num.ltb _ 0). Qed.

Lemma monthly_row_balance (r p : Q) (m : Z) (d : date) (B : Q) :
  mr_balance (monthly_row r p m d B) = next_balance r p B.
Proof. unfold monthly_row, next_balance. now destruct (Num.ltb _ 0). Qed.

Lemma monthly_loop_skipped (r p : Q) (show : list Z) (m : Z) (rest : list Z)
  (B : Q) (d : date) (acc : list MonthRow) :
  in_list m show = false ->
  monthly_loop r p show (m :: rest) B d acc =
  monthly_loop r p show rest (next_balance r p B) d acc.
Proof. intro H. cbn [monthly_loop]. rewrite H. reflexivity. Qed.

Lemma monthly_loop_shown (r p : Q) (show : list Z) (m : Z) (rest : list Z)
  (B : Q) (d : date) (acc : list MonthRow) :
  in_list m show = true ->
  monthly_loop r p show (m :: rest) B d acc =
  (d' <- next_month d ;;
   if Num.leb (next_balance r p B) 0
   then Ok (acc ++ [monthly_row r p m d B])
   else monthly_loop r p show rest (next_balance r p B) d'
          (acc ++ [monthly_row r p m d B])).
Proof.
  intro H. cbn [monthly_loop]. rewrite H. cbn [negb].
  unfold monthly_row, next_balance. now destruct (Num.ltb _ 0).
Qed.

Lemma monthly_loop_run (r p : Q) (show : list Z) (months : list Z) :
  forall (B : Q) (d : date) (acc rows : list MonthRow),
    monthly_loop r p show months B d acc = Ok rows ->
    exists new, rows = acc ++ new /\ monthly_run r p show months B d new.
Proof.
  induction months as [|m rest IH]; intros B d acc rows H.
  - cbn in H. exists []. split; [rewrite app_nil_r; congruence | constructor].
  - destruct (in_list m show) eqn:E.
    + rewrite monthly_loop_shown in H by exact E.
      destruct (next_month d) as [d'|e] eqn:Hd; [|discriminate].
      cbn [bind] in H.
      destruct (Num.leb (next_balance r p B) 0) eqn:Hb.
      * exists [monthly_row r p m d B]. split; [congruence|].
        now apply run_payoff with d'.
      * apply IH in H. destruct H as (new & -> & Hrun).
        exists (monthly_row r p m d B :: new). split.
        -- now rewrite <- app_assoc.
        -- now apply run_row with d'.
    + rewrite monthly_loop_skipped in H by exact E.
      apply IH in H. destruct H as (new & -> & Hrun).
      exists new. split; [reflexivity | now apply run_skip].
Qed.

(** The schedule, when it is not empty, is a run of the loop over the
    whole term. *)
Lemma monthly_schedule_run (inp : LoanInput) :
  generate_monthly_schedule inp = [] \/
  exists p,
    fixed_payment (loan_amount_of inp) (monthly_rate_of inp)
      (total_months_of inp) = Ok p /\
    monthly_run (monthly_rate_of inp) p (months_to_show (total_months_of inp))
      (range 1 (total_months_of inp + 1)) (loan_amount_of inp)
      (start_date inp) (generate_monthly_schedule inp).
Proof.
  unfold generate_monthly_schedule, generate_monthly_schedule_body.
  destruct (calculate_mortgage inp); [|left; reflexivity].
  fold (loan_amount_of inp) (monthly_rate_of inp) (total_months_of inp).
  destruct (fixed_payment _ _ _) as [p|e] eqn:Hp; [|left; reflexivity].
  cbn [bind].
  destruct (monthly_loop _ _ _ _ _ _ _) as [rows|e] eqn:Hl; [|left; reflexivity].
  right. exists p. split; [reflexivity|].
  apply monthly_loop_run in Hl. destruct Hl as (new & -> & Hrun). exact Hrun.
Qed.

(** *** Consequences of a run *)

Lemma run_months_prefix (r p : Q) (show months : list Z) (B : Q) (d : date)
  (rows : list MonthRow) :
  monthly_run r p show months B d rows ->
  exists k, map mr_month rows =
            firstn k (filter (fun m => in_list m show) months).
Proof.
  induction 1 as [B d | m rest B d rows E _ [k IH] | m rest B d d' E _ _
                  | m rest B d d' rows E _ _ _ [k IH]].
  - exists O. reflexivity.
  - exists k. cbn [filter]. rewrite E. exact IH.
  - exists 1%nat. cbn [filter]. rewrite E. cbn. now rewrite monthly_row_month.
  - exists (S k). cbn [filter]. rewrite E. cbn [map firstn].
    now rewrite monthly_row_month, IH.
Qed.


Lemma balance_after_shift (r p B : Q) (k : nat) :
  balance_after r p (next_balance r p B) k = balance_after r p B (S k).
Proof.
  induction k as [|k IH]; [reflexivity|].
  cbn [balance_after] in *. now rewrite IH.
Qed.

Lemma run_balances (r p : Q) (show months : list Z) (B : Q) (d : date)
  (rows : list MonthRow) :
  monthly_run r p show months B d rows ->
  Forall (fun row =>
            exists j, nth_error months j = Some (mr_month row) /\
                      mr_balance row = balance_after r p B (S j)) rows.
Proof.
  induction 1 as [B d | m rest B d rows E _ IH | m rest B d d' E _ _
                  | m rest B d d' rows E _ Hb _ IH].
  - constructor.
  - eapply Forall_impl; [|exact IH]. cbn beta.
    intros row (j & Hj & Hbal). exists (S j). split; [exact Hj|].
    now rewrite Hbal, balance_after_shift.
  - constructor; [|constructor]. exists O.
    now rewrite monthly_row_month, monthly_row_balance.
  - constructor.
    + exists O. now rewrite monthly_row_month, monthly_row_balance.
    + eapply Forall_impl; [|exact IH]. cbn beta.
      intros row (j & Hj & Hbal). exists (S j). split; [exact Hj|].
      now rewrite Hbal, balance_after_shift.
Qed.

Lemma nth_error_range (lo hi : Z) (j : nat) (m : Z) :
  nth_error (range lo hi) j = Some m -> m = (lo + Z.of_nat j)%Z /\ (m < hi)%Z.
Proof.
  intro H. pose proof (nth_error_In _ _ H) as Hin. apply In_range in Hin.
  unfold range in H. rewrite nth_error_map in H.
  destruct (nth_error (seq 0 (Z.to_nat (hi - lo))) j) as [i|] eqn:Hi;
    [|discriminate].
  cbn in H. assert (Hlt : (j < length (seq 0 (Z.to_nat (hi - lo))))%nat)
    by (apply nth_error_Some; congruence).
  rewrite length_seq in Hlt.
  rewrite (nth_error_nth' _ O) in Hi by (now rewrite length_seq).
  rewrite seq_nth in Hi by exact Hlt.
  split; [|lia]. injection Hi as <-. injection H as <-. lia.
Qed.




(** *** The loop does not fail on an ordinary start date *)

Lemma days_in_month_ge_28 (y m : Z) : (28 <= days_in_month y m)%Z.
Proof.
  unfold days_in_month.
  destruct (m =? 2)%Z; [destruct (is_leap y); lia|].
  destruct ((m =? 4) || (m =? 6) || (m =? 9) || (m =? 11))%bool; lia.
Qed.

Lemma valid_date_iff (d : date) :
  valid_date d = true <->
  (1 <= date_year d <= 9999 /\ 1 <= date_month d <= 12 /\
   1 <= date_day d <= days_in_month (date_year d) (date_month d))%Z.
Proof.
  unfold valid_date. rewrite !andb_true_iff, !Z.leb_le. tauto.
Qed.

Lemma make_date_ok (y m dd : Z) :
  (1 <= y <= 9999 -> 1 <= m <= 12 -> 1 <= dd <= 28 ->
   make_date y m dd = Ok (mkDate y m dd))%Z.
Proof.
  intros Hy Hm Hd. unfold make_date.
  replace (valid_date (mkDate y m dd)) with true; [reflexivity|].
  symmetry. apply valid_date_iff. cbn.
  pose proof (days_in_month_ge_28 y m). lia.
Qed.

Lemma next_month_ok (d : date) (k : Z) :
  can_advance d k -> (1 <= k)%Z ->
  exists d', next_month d = Ok d' /\ can_advance d' (k - 1).
Proof.
  intros (Hv & Hd & Hi) Hk. pose proof Hv as Hv'.
  apply valid_date_iff in Hv'. destruct Hv' as (Hy & Hm & Hdd).
  unfold month_index in Hi. unfold next_month.
  destruct (date_month d =? 12)%Z eqn:E.
  - apply Z.eqb_eq in E. unfold replace_year_month.
    rewrite make_date_ok by lia. eexists. split; [reflexivity|].
    unfold can_advance, month_index. cbn.
    split; [|lia]. apply valid_date_iff. cbn.
    pose proof (days_in_month_ge_28 (date_year d + 1) 1). lia.
  - apply Z.eqb_neq in E. unfold replace_month.
    rewrite make_date_ok by lia. eexists. split; [reflexivity|].
    unfold can_advance, month_index. cbn.
    split; [|lia]. apply valid_date_iff. cbn.
    pose proof (days_in_month_ge_28 (date_year d) (date_month d + 1)). lia.
Qed.

Lemma can_advance_fewer (d : date) (k k' : Z) :
  (k' <= k)%Z -> can_advance d k -> can_advance d k'.
Proof. unfold can_advance. intros H (Hv & Hd & Hi). repeat split; try assumption; lia. Qed.

(** On a start date that the month step can advance, the loop over the
    months [lo .. T], entered with the balance after [lo - 1] updates, does
    not fail; it emits the months of the window up to and including the
    first one whose balance is not positive. *)
Lemma monthly_loop_until_paid (r p L : Q) (show : list Z) (T : Z) :
  forall (n : nat) (lo : Z) (d : date) (acc : list MonthRow),
    Z.to_nat (T + 1 - lo) = n -> (1 <= lo)%Z ->
    can_advance d (Z.of_nat n) ->
    exists rows,
      monthly_loop r p show (range lo (T + 1))
        (balance_after r p L (Z.to_nat (lo - 1))) d acc = Ok (acc ++ rows) /\
      map mr_month rows =
        until_paid (fun m => Num.leb (balance_after r p L (Z.to_nat m)) 0)
          (filter (fun m => in_list m show) (range lo (T + 1))).
Proof.
  induction n as [|n IH]; intros lo d acc Hn Hlo Hd.
  - rewrite range_nil by lia. exists []. cbn. now rewrite app_nil_r.
  - rewrite range_cons by lia.
    assert (Hstep : next_balance r p (balance_after r p L (Z.to_nat (lo - 1)))
                    = balance_after r p L (Z.to_nat lo)).
    { replace (Z.to_nat lo) with (S (Z.to_nat (lo - 1))) by lia. reflexivity. }
    cbn [filter]. destruct (in_list lo show) eqn:E.
    + rewrite monthly_loop_shown by exact E.
      destruct (next_month_ok d _ Hd) as (d' & Hnext & Hd'); [lia|].
      rewrite Hnext. cbn [bind]. rewrite Hstep. cbn [until_paid].
      destruct (Num.leb (balance_after r p L (Z.to_nat lo)) 0).
      * eexists [_]. split; [reflexivity|]. cbn.
        now rewrite monthly_row_month.
      * replace (Z.of_nat (S n) - 1)%Z with (Z.of_nat n) in Hd' by lia.
        destruct (IH (lo + 1)%Z d'
                    (acc ++ [monthly_row r p lo d
                               (balance_after r p L (Z.to_nat (lo - 1)))]))
          as (rows & Hl & Hm); [lia | lia | exact Hd' |].
        replace (Z.to_nat (lo + 1 - 1)) with (Z.to_nat lo) in Hl by lia.
        eexists (_ :: rows). rewrite Hl, <- app_assoc.
        split; [reflexivity|]. cbn [map]. now rewrite monthly_row_month, Hm.
    + rewrite monthly_loop_skipped by exact E. rewrite Hstep.
      destruct (IH (lo + 1)%Z d acc) as (rows & Hl & Hm); [lia | lia | |].
      { apply can_advance_fewer with (Z.of_nat (S n)); [lia | exact Hd]. }
      replace (Z.to_nat (lo + 1 - 1)) with (Z.to_nat lo) in Hl by lia.
      exists rows. split; [exact Hl | exact Hm].
Qed.

Lemma until_paid_all (paid : Z -> bool) (months : list Z) :
  (forall m, In m (removelast months) -> paid m = false) ->
  until_paid paid months = months.
Proof.
  induction months as [|m rest IH]; intro H; [reflexivity|].
  cbn [until_paid]. destruct rest as [|m' rest'].
  - now destruct (paid m).
  - rewrite (H m) by (now left). f_equal. apply IH.
    intros x Hx. apply H. now right.
Qed.

(** *** The labels follow the rows, not the months *)

Lemma advance_months_shift (d d' : date) (k : nat) :
  next_month d = Ok d' -> advance_months d (S k) = advance_months d' k.
Proof.
  intro H. induction k as [|k IH].
  - cbn. exact H.
  - change (advance_months d (S (S k)))
      with (x <- advance_months d (S k) ;; next_month x).
    rewrite IH. reflexivity.
Qed.

(** The row in position [i] of a run is labelled with the start date
    advanced [i] times, whatever its month. *)
Lemma run_labels_follow_rows (r p : Q) (show months : list Z) (B : Q)
  (d : date) (rows : list MonthRow) :
  monthly_run r p show months B d rows ->
  forall i row, nth_error rows i = Some row ->
    exists d', advance_months d i = Ok d' /\ mr_date row = strftime_b_Y d'.
Proof.
  induction 1 as [B d | m rest B d rows E _ IH | m rest B d d' E Hn _
                  | m rest B d d' rows E Hn _ _ IH]; intros i row Hi.
  - destruct i; discriminate.
  - now apply IH.
  - destruct i as [|i]; [|destruct i; discriminate].
    injection Hi as <-. exists d. split; [reflexivity|].
    apply monthly_row_date.
  - destruct i as [|i].
    + injection Hi as <-. exists d. split; [reflexivity|].
      apply monthly_row_date.
    + destruct (IH i row Hi) as (d'' & Ha & Hl). exists d''.
      split; [|exact Hl]. now rewrite (advance_months_shift d d').
Qed.

(** ** When the summary succeeds *)

Lemma fixed_payment_ok (L r : Q) (T : Z) :
  0 <= r -> (1 <= T)%Z -> exists p, fixed_payment L r T = Ok p.
Proof.
  intros Hr HT. unfold fixed_payment. destruct (Num.gtb r 0) eqn:E.
  - apply gtb_iff in E.
    assert (Hb : 0 < Num.add 1 r) by (rewrite add_eq; lra).
    rewrite (pow_ok _ _ Hb). cbn [bind]. eexists. apply div_ok.
    rewrite sub_eq, Qred_correct, add_eq.
    assert (1 < (1 + r) ^ T) by (apply Qpower_1_lt; [lra | lia]). lra.
  - eexists. apply div_ok. unfold Num.of_int.
    assert (0 < inject_Z T); [|lra].
    change 0 with (inject_Z 0). rewrite <- Zlt_Qlt. lia.
Qed.

Lemma loan_amount_positive (inp : LoanInput) :
  down_payment inp < home_value inp -> 0 < loan_amount_of inp.
Proof. intro H. unfold loan_amount_of. rewrite sub_eq. lra. Qed.


(** ** The monthly schedule *)

Lemma monthly_schedule_prefix (inp : LoanInput) :
  exists k, map mr_month (generate_monthly_schedule inp) =
            firstn k (months_to_show (total_months_of inp)).
Proof.
  destruct (monthly_schedule_run inp) as [-> | (p & _ & Hrun)].
  - exists O. reflexivity.
  - apply run_months_prefix in Hrun. destruct Hrun as [k Hk].
    exists k. now rewrite Hk, window_is_filtered_range.
Qed.

Lemma NoDup_firstn {A : Type} (k : nat) (l : list A) :
  NoDup l -> NoDup (firstn k l).
Proof.
  intro H. rewrite <- (firstn_skipn k l) in H.
  now apply NoDup_app_remove_r in H.
Qed.

(** ** The yearly loop *)







(** ** Balances never rise *)



(** ** The yearly schedule on a start date other than 29 February *)

Lemma replace_year_ok (sd : date) (y : Z) :
  valid_date sd = true ->
  ~ (date_month sd = 2 /\ date_day sd = 29)%Z ->
  (1 <= y <= 9999)%Z ->
  replace_year sd y = Ok (mkDate y (date_month sd) (date_day sd)).
Proof.
  intros Hv Hleap Hy. apply valid_date_iff in Hv.
  destruct Hv as (_ & Hm & Hd).
  unfold replace_year, make_date.
  replace (valid_date _) with true; [reflexivity|].
  symmetry. apply valid_date_iff. cbn.
  split; [exact Hy | split; [exact Hm|]].
  revert Hd. unfold days_in_month.
  destruct (date_month sd =? 2)%Z eqn:E.
  - apply Z.eqb_eq in E. destruct (is_leap (date_year sd)), (is_leap y); lia.
  - tauto.
Qed.

Lemma Forall_zero_row_tail (rows : list YearRow) :
  Forall zero_row rows -> zero_padded rows.
Proof.
  induction 1 as [|row rows _ H IH]; [exact I|].
  split; [intros _; exact H | exact IH].
Qed.

Lemma fill_remaining_ok (sd : date) (years : list Z) :
  valid_date sd = true ->
  ~ (date_month sd = 2 /\ date_day sd = 29)%Z ->
  (forall y, In y years -> 1 <= date_year sd + y - 1 <= 9999)%Z ->
  forall acc, exists new,
    fill_remaining sd years acc = Ok (acc ++ new) /\
    map yr_year new = years /\ Forall zero_row new.
Proof.
  intros Hv Hleap. induction years as [|y rest IH]; intros Hy acc.
  - exists []. cbn. rewrite app_nil_r. repeat split. constructor.
  - cbn [fill_remaining].
    rewrite replace_year_ok by (try assumption; apply Hy; now left).
    cbn [bind].
    destruct (IH (fun z Hz => Hy z (or_intror Hz))
                (acc ++ [ {| yr_year := y;
                             yr_date := strftime_Y
                               (mkDate (date_year sd + y - 1) (date_month sd)
                                  (date_day sd));
                             yr_principal := 0; yr_interest := 0;
                             yr_balance := 0 |} ]))
      as (new & Hf & Hm & Hz).
    eexists (_ :: new). rewrite Hf, <- app_assoc. split; [reflexivity|].
    split; [cbn; now rewrite Hm|].
    constructor; [now repeat split | exact Hz].
Qed.

Lemma yearly_loop_ok (r p : Q) (sd : date) (N : Z) :
  valid_date sd = true ->
  ~ (date_month sd = 2 /\ date_day sd = 29)%Z ->
  (date_year sd + N - 1 <= 9999)%Z ->
  forall (n : nat) (lo : Z) (B : Q) (acc : list YearRow),
    Z.to_nat (N + 1 - lo) = n -> (1 <= lo)%Z ->
    exists new,
      yearly_loop r p sd N (range lo (N + 1)) B acc = Ok (acc ++ new) /\
      map yr_year new = range lo (N + 1) /\ zero_padded new.
Proof.
  intros Hv Hleap HN. pose proof Hv as Hv'. apply valid_date_iff in Hv'.
  induction n as [|n IH]; intros lo B acc Hn Hlo.
  - rewrite range_nil by lia. exists []. cbn. now rewrite app_nil_r.
  - rewrite range_cons by lia. cbn [yearly_loop].
    destruct (year_months r p (range 0 12) (B, 0, 0)) as [[B' yi] yp].
    rewrite replace_year_ok by (try assumption; lia). cbn [bind].
    destruct (Num.leb B' 0) eqn:E.
    + match goal with |- context [fill_remaining sd ?ys ?a] =>
        destruct (fill_remaining_ok sd ys Hv Hleap) with (acc := a)
          as (new & Hf & Hm & Hz)
      end.
      { intros y Hy. apply In_range in Hy. lia. }
      eexists (_ :: new). rewrite Hf, <- app_assoc. split; [reflexivity|].
      split; [cbn; now rewrite Hm|].
      split; [intros _; exact Hz | now apply Forall_zero_row_tail].
    + match goal with |- context [yearly_loop r p sd N _ B' ?a] =>
        destruct (IH (lo + 1)%Z B' a) as (new & Hf & Hm & Hz); [lia | lia |]
      end.
      eexists (_ :: new). rewrite Hf, <- app_assoc. split; [reflexivity|].
      split; [cbn; now rewrite Hm|].
      split; [|exact Hz].
      cbn [yr_balance]. intro Hneg. apply leb_false_iff in E. lra.
Qed.

Lemma make_date_inv (y m dd : Z) (d : date) :
  make_date y m dd = Ok d -> valid_date (mkDate y m dd) = true.
Proof. unfold make_date. now destruct (valid_date (mkDate y m dd)). Qed.

Lemma summary_year_in_range (inp : LoanInput) :
  calculate_mortgage inp <> None ->
  (1 <= date_year (start_date inp) + effective_term inp <= 9999)%Z.
Proof.
  unfold calculate_mortgage, calculate_mortgage_body. intro H.
  destruct (fixed_payment _ _ _); [|cbn in H; congruence].
  cbn [bind] in H.
  destruct (replace_year (start_date inp)
              (date_year (start_date inp) + effective_term inp))
    as [d|e] eqn:E; [|cbn in H; congruence].
  apply make_date_inv, valid_date_iff in E.
  cbn [date_year] in E. lia.
Qed.

(** X20.  Away from a leap-day start, the yearly schedule has one row per year of
    the term, zero rows following the payoff. *)
Lemma yearly_schedule_rows (inp : LoanInput) :
  0 <= interest_rate inp -> (1 <= effective_term inp)%Z ->
  valid_date (start_date inp) = true ->
  ~ (date_month (start_date inp) = 2 /\ date_day (start_date inp) = 29)%Z ->
  calculate_mortgage inp <> None ->
  map yr_year (generate_yearly_schedule inp) =
    range 1 (effective_term inp + 1) /\
  Z.of_nat (length (generate_yearly_schedule inp)) = effective_term inp /\
  zero_padded (generate_yearly_schedule inp).
Proof.
  intros Hr HT Hv Hleap Hres.
  pose proof (summary_year_in_range inp Hres) as Hy.
  assert (Hmap : exists rows, generate_yearly_schedule inp = rows /\
             map yr_year rows = range 1 (effective_term inp + 1) /\
             zero_padded rows).
  { unfold generate_yearly_schedule, generate_yearly_schedule_body.
    destruct (calculate_mortgage inp); [|congruence].
    fold (loan_amount_of inp) (monthly_rate_of inp) (total_months_of inp).
    destruct (fixed_payment_ok (loan_amount_of inp) (monthly_rate_of inp)
                (total_months_of inp)) as [p Hp].
    { now apply monthly_rate_nonneg. }
    { unfold total_months_of. lia. }
    rewrite Hp. cbn [bind].
    destruct (yearly_loop_ok (monthly_rate_of inp) p (start_date inp)
                (effective_term inp) Hv Hleap)
      with (n := Z.to_nat (effective_term inp + 1 - 1)) (lo := 1%Z)
           (B := loan_amount_of inp) (acc := @nil YearRow)
      as (new & Hl & Hm & Hz); [lia | reflexivity | lia |].
    rewrite Hl. exists new. now repeat split. }
  destruct Hmap as (rows & -> & Hm & Hz).
  split; [exact Hm | split; [|exact Hz]].
  rewrite <- (length_map yr_year), Hm, length_range. lia.
Qed.

(** ** The months of the monthly schedule *)

Lemma start_date_can_advance (inp : LoanInput) :
  calculate_mortgage inp <> None ->
  valid_date (start_date inp) = true ->
  (date_day (start_date inp) <= 28)%Z ->
  can_advance (start_date inp) (Z.of_nat (Z.to_nat (total_months_of inp))).
Proof.
  intros Hres Hv Hd. pose proof (summary_year_in_range inp Hres) as Hy.
  pose proof Hv as Hv'. apply valid_date_iff in Hv'.
  unfold can_advance, month_index, total_months_of in *.
  split; [exact Hv | split; [exact Hd | lia]].
Qed.

(** With a summary and a start date that the month step can advance, the
    months of the schedule are those of the window, cut after the first one
    whose balance is not positive. *)
Lemma monthly_schedule_until_paid (inp : LoanInput) (p : Q) :
  fixed_payment (loan_amount_of inp) (monthly_rate_of inp)
    (total_months_of inp) = Ok p ->
  calculate_mortgage inp <> None ->
  valid_date (start_date inp) = true ->
  (date_day (start_date inp) <= 28)%Z ->
  map mr_month (generate_monthly_schedule inp) =
  until_paid
    (fun m => Num.leb (balance_after (monthly_rate_of inp) p
                         (loan_amount_of inp) (Z.to_nat m)) 0)
    (months_to_show (total_months_of inp)).
Proof.
  intros Hp Hres Hv Hd.
  pose proof (start_date_can_advance inp Hres Hv Hd) as Hadv.
  unfold generate_monthly_schedule, generate_monthly_schedule_body.
  destruct (calculate_mortgage inp); [|congruence].
  fold (loan_amount_of inp) (monthly_rate_of inp) (total_months_of inp).
  rewrite Hp. cbn [bind].
  destruct (monthly_loop_until_paid (monthly_rate_of inp) p (loan_amount_of inp)
              (months_to_show (total_months_of inp)) (total_months_of inp)
              (Z.to_nat (total_months_of inp)) 1%Z (start_date inp) [])
    as (rows & Hl & Hm); [lia | lia | exact Hadv |].
  change (Z.to_nat (1 - 1)) with O in Hl. cbn [balance_after app] in Hl.
  rewrite Hl, Hm. now rewrite window_is_filtered_range.
Qed.

Lemma months_to_show_last (T : Z) :
  (1 <= T)%Z ->
  exists before,
    months_to_show T = before ++ [T] /\ forall m, In m before -> (m < T)%Z.
Proof.
  intro HT. rewrite <- window_is_filtered_range.
  rewrite (range_app 1 T (T + 1)) by lia.
  rewrite (range_cons T (T + 1)) by lia.
  rewrite (range_nil (T + 1) (T + 1)) by lia.
  rewrite filter_app. cbn [filter].
  replace (in_list T (months_to_show T)) with true.
  - eexists. split; [reflexivity|].
    intros m Hm. apply filter_In in Hm. destruct Hm as [Hm _].
    apply In_range in Hm. lia.
  - symmetry. apply in_list_iff, In_months_to_show. lia.
Qed.

(** The whole window is emitted when the balance is still positive after
    every month of the window before the last month of the term. *)
Lemma monthly_schedule_whole_window (inp : LoanInput) (p : Q) :
  fixed_payment (loan_amount_of inp) (monthly_rate_of inp)
    (total_months_of inp) = Ok p ->
  calculate_mortgage inp <> None ->
  valid_date (start_date inp) = true ->
  (date_day (start_date inp) <= 28)%Z ->
  (forall m, In m (months_to_show (total_months_of inp)) ->
     (m < total_months_of inp)%Z ->
     0 < balance_after (monthly_rate_of inp) p (loan_amount_of inp)
           (Z.to_nat m)) ->
  map mr_month (generate_monthly_schedule inp) =
  months_to_show (total_months_of inp).
Proof.
  intros Hp Hres Hv Hd Hpos.
  rewrite (monthly_schedule_until_paid inp p Hp Hres Hv Hd).
  apply until_paid_all. intros m Hm.
  destruct (Z_lt_le_dec (total_months_of inp) 1) as [HT|HT].
  - exfalso. assert (Hw : months_to_show (total_months_of inp) = []).
    { unfold months_to_show. rewrite range_nil by lia.
      replace (12 <? total_months_of inp)%Z with false
        by (symmetry; apply Z.ltb_ge; lia).
      reflexivity. }
    rewrite Hw in Hm. exact Hm.
  - destruct (months_to_show_last _ HT) as (before & Hw & Hlt).
    rewrite Hw, removelast_last in Hm.
    apply leb_false_iff. apply Hpos; [|now apply Hlt].
    rewrite Hw. apply in_or_app. now left.
Qed.

(** ** Failure of the summary *)

Lemma fixed_payment_zero_months (loan_amount monthly_rate : Q) :
  fixed_payment loan_amount monthly_rate 0 = Raise ZeroDivisionError.
Proof.
  unfold fixed_payment. destruct (Num.gtb monthly_rate 0) eqn:E.
  - apply gtb_iff in E.
    assert (Hb : 0 < Num.add 1 monthly_rate) by (rewrite add_eq; lra).
    rewrite (pow_ok _ _ Hb). cbn [bind].
    apply div_zero. rewrite sub_eq, Qred_correct, Qpower_0_r. lra.
  - apply div_zero. reflexivity.
Qed.

(** * The claims *)




(** C2 fails on the code.  With a start date of 29 February 2024 and a term
    of four years the summary is computed (2028 is a leap year), but the
    label of the second year, [start_date.replace(year=2025)], raises
    [ValueError] and the yearly schedule comes back empty instead of having
    four rows. *)
Theorem leap_day_start_empties_yearly_schedule :
  calculate_mortgage leap_day_four_years <> None /\
  effective_term leap_day_four_years = 4%Z /\
  replace_year feb_29_2024 (2024 + 2 - 1) = Raise ValueError /\
  generate_yearly_schedule leap_day_four_years = [].
Proof.
  split; [vm_compute; discriminate|].
  split; [reflexivity|].
  split; vm_compute; reflexivity.
Qed.

(** C3 (as amended).  With T = effective term * 12, the window is
    {1..min(12, T)} together with {T-11..T} when T > 12.  The months of the
    monthly schedule are an initial part of the window: no month twice, at
    most min(12, T) + max(0, min(T - 12, 12)) of them, at most 24.  When
    there is a summary, the term is at least one year, the day of the start
    date exists in every month and the balance is still positive after
    every month of the window before the last month of the term, all the
    months of the window are emitted and the row count is that number. *)
Theorem monthly_schedule_months (inp : LoanInput) :
  let T := total_months_of inp in
  let months := map mr_month (generate_monthly_schedule inp) in
  let window_size := (Z.min 12 T + Z.max 0 (Z.min (T - 12) 12))%Z in
  (exists k, months = firstn k (months_to_show T)) /\
  NoDup months /\
  (forall m, In m (months_to_show T) <->
             (1 <= m <= Z.min 12 T)%Z \/
             (12 < T /\ T - 11 <= m <= T /\ 13 <= m)%Z) /\
  (Z.of_nat (length months) <= 24)%Z /\
  ((0 <= T)%Z -> (Z.of_nat (length months) <= window_size)%Z) /\
  (forall p,
     fixed_payment (loan_amount_of inp) (monthly_rate_of inp) T = Ok p ->
     calculate_mortgage inp <> None ->
     (1 <= effective_term inp)%Z ->
     valid_date (start_date inp) = true ->
     (date_day (start_date inp) <= 28)%Z ->
     (forall m, In m (months_to_show T) -> (m < T)%Z ->
        0 < balance_after (monthly_rate_of inp) p (loan_amount_of inp)
              (Z.to_nat m)) ->
     months = months_to_show T /\ Z.of_nat (length months) = window_size).
Proof.
  intros T months window_size.
  destruct (monthly_schedule_prefix inp) as [k Hk].
  fold T months in Hk.
  assert (Hlen : (length months <= length (months_to_show T))%nat).
  { rewrite Hk, length_firstn. lia. }
  assert (Hsize : (0 <= T)%Z ->
                  Z.of_nat (length (months_to_show T)) = window_size)
    by (apply length_months_to_show).
  split; [now exists k|].
  split; [rewrite Hk; apply NoDup_firstn, NoDup_months_to_show|].
  split; [intro m; apply In_months_to_show|].
  split; [|split].
  - destruct (Z_lt_le_dec T 0) as [Hneg|Hpos].
    + assert (Hw : months_to_show T = []).
      { unfold months_to_show. rewrite range_nil by lia.
        replace (12 <? T)%Z with false by (symmetry; apply Z.ltb_ge; lia).
        reflexivity. }
      rewrite Hw in Hlen. cbn in Hlen. lia.
    + specialize (Hsize Hpos). unfold window_size in Hsize. lia.
  - intro Hpos. specialize (Hsize Hpos). lia.
  - intros p Hp Hres HT Hv Hd Hbal.
    assert (Hfull : months = months_to_show T)
      by (now apply (monthly_schedule_whole_window inp p)).
    split; [exact Hfull|]. rewrite Hfull. apply Hsize.
    unfold T, total_months_of. lia.
Qed.

Lemma monthly_schedule_months_witness :
  exists p,
    fixed_payment (loan_amount_of one_year_loan)
      (monthly_rate_of one_year_loan) (total_months_of one_year_loan) = Ok p /\
    map mr_month (generate_monthly_schedule one_year_loan) =
      months_to_show (total_months_of one_year_loan) /\
    Z.of_nat (length (map mr_month (generate_monthly_schedule one_year_loan)))
    = 12%Z.
Proof.
  assert (H : exists p,
            fixed_payment (loan_amount_of one_year_loan)
              (monthly_rate_of one_year_loan)
              (total_months_of one_year_loan) = Ok p /\
            forall m, In m (months_to_show (total_months_of one_year_loan)) ->
              (m < total_months_of one_year_loan)%Z ->
              0 < balance_after (monthly_rate_of one_year_loan) p
                    (loan_amount_of one_year_loan) (Z.to_nat m)).
  { eexists. split; [vm_compute; reflexivity|].
    intros m Hm Hlt. apply In_months_to_show in Hm.
    change (total_months_of one_year_loan) with 12%Z in Hm, Hlt.
    assert (Hcases : (m = 1 \/ m = 2 \/ m = 3 \/ m = 4 \/ m = 5 \/ m = 6 \/
                      m = 7 \/ m = 8 \/ m = 9 \/ m = 10 \/ m = 11)%Z) by lia.
    repeat (destruct Hcases as [-> | Hcases]; [vm_compute; reflexivity|]).
    subst m. vm_compute. reflexivity. }
  destruct H as (p & Hp & Hbal). exists p. split; [exact Hp|].
  destruct (monthly_schedule_months one_year_loan) as (_ & _ & _ & _ & _ & H).
  apply (H p Hp).
  - vm_compute. discriminate.
  - vm_compute. discriminate.
  - reflexivity.
  - vm_compute. discriminate.
  - exact Hbal.
Defined.

(** C3 as stated fails: a loan of amount zero over one year is paid off at
    its first month, and the schedule has that one row, not the twelve of
    the window. *)
Lemma zero_loan_has_one_month :
  let T := total_months_of zero_loan in
  map mr_month (generate_monthly_schedule zero_loan) = [1%Z] /\
  months_to_show T = [1; 2; 3; 4; 5; 6; 7; 8; 9; 10; 11; 12]%Z /\
  Z.of_nat (length (generate_monthly_schedule zero_loan)) <>
  (Z.min 12 T + Z.max 0 (Z.min (T - 12) 12))%Z.
Proof. repeat split; vm_compute; congruence. Qed.




(** C5 fails on the code.  With a start date of 29 February 2024 and a term
    of one year, [start_date.replace(year=2025)] raises [ValueError] before
    the clamp to 28 February is reached, and the summary is absent instead
    of giving February 2025. *)
Theorem leap_day_start_one_year_fails :
  replace_year feb_29_2024 (2024 + 1) = Raise ValueError /\
  calculate_mortgage leap_day_one_year = None.
Proof. split; vm_compute; reflexivity. Qed.

(** The values of the specification's example, checked by evaluation. *)
Lemma spec_example_check :
  match calculate_mortgage spec_example with
  | Some res =>
      Qeq_bool (res_loan_amount res) 320000 &&
      approxb (res_monthly_payment_pi res) 2128.97 &&
      approxb (res_total_monthly_payment res) 2503.97
  | None => false
  end = true.
Proof. vm_compute. reflexivity. Qed.

(** C6 (as amended).  On the example of the specification the summary has
    loan amount 320000, monthly payment 2128.97 and total monthly payment
    2503.97 (2128.97 + 3000/12 + 1500/12), each up to rounding. *)
Theorem spec_example_summary :
  match calculate_mortgage spec_example with
  | Some res =>
      res_loan_amount res == 320000 /\
      approx (res_monthly_payment_pi res) 2128.97 /\
      approx (res_total_monthly_payment res) 2503.97
  | None => False
  end.
Proof.
  pose proof spec_example_check as H.
  destruct (calculate_mortgage spec_example) as [res|]; [|discriminate].
  apply andb_prop in H. destruct H as [H H3].
  apply andb_prop in H. destruct H as [H1 H2].
  split; [now apply Qeq_bool_eq | split; now apply Qle_bool_iff].
Qed.

(** C6 as stated fails: the total monthly payment is not 2503.47 up to
    rounding. *)
Lemma spec_example_total_is_not_2503_47 :
  ~ match calculate_mortgage spec_example return Prop with
    | Some res =>
        res_loan_amount res == 320000 /\
        approx (res_monthly_payment_pi res) 2128.97 /\
        approx (res_total_monthly_payment res) 2503.47
    | None => False
    end.
Proof.
  pose proof spec_example_check as H.
  destruct (calculate_mortgage spec_example) as [res|]; [|exact (fun x => x)].
  apply andb_prop in H. destruct H as [_ H]. apply Qle_bool_iff in H.
  intros (_ & _ & H'). unfold approx in H'.
  apply Qabs_Qle_condition in H, H'. lra.
Qed.

(** C7 (as amended).  When the effective term is zero the summary fails: the
    payment formula divides by zero, the exception is caught and no result
    is returned. *)
Theorem summary_fails_on_zero_term (inp : LoanInput) :
  effective_term inp = 0%Z -> calculate_mortgage inp = None.
Proof.
  intro H. unfold calculate_mortgage, calculate_mortgage_body.
  rewrite H. change (0 * 12)%Z with 0%Z.
  now rewrite fixed_payment_zero_months.
Qed.

Lemma summary_fails_on_zero_term_witness :
  effective_term zero_term = 0%Z /\ calculate_mortgage zero_term = None.
Proof.
  split; [reflexivity|].
  apply (summary_fails_on_zero_term zero_term). reflexivity.
Defined.

(** C7 as stated fails: a negative effective term is not rejected, the
    summary is computed. *)
Lemma negative_term_is_accepted :
  (effective_term negative_term <= 0)%Z /\
  calculate_mortgage negative_term <> None.
Proof. split; vm_compute; discriminate. Qed.

(** C8.  When the summary fails, the yearly and the monthly schedule are
    both empty; the generators return a list in every case. *)
Theorem schedules_empty_when_summary_fails (inp : LoanInput) :
  calculate_mortgage inp = None ->
  generate_yearly_schedule inp = [] /\ generate_monthly_schedule inp = [].
Proof.
  intro H.
  unfold generate_yearly_schedule, generate_yearly_schedule_body,
    generate_monthly_schedule, generate_monthly_schedule_body.
  rewrite H. split; reflexivity.
Qed.

Lemma schedules_empty_when_summary_fails_witness :
  calculate_mortgage zero_term = None /\
  generate_yearly_schedule zero_term = [] /\
  generate_monthly_schedule zero_term = [].
Proof.
  split; [reflexivity|].
  apply (schedules_empty_when_summary_fails zero_term). reflexivity.
Defined.

(** C9 fails on the code.  For a three-year loan starting in January 2024
    the rows of months 25 to 36 are labelled January to December 2025: the
    date is advanced only when a row is emitted, so the twelve skipped
    months are missing from the labels.  Month 25 is January 2026. *)
Theorem monthly_labels_lag_after_skipped_months :
  map (fun row => (mr_month row, mr_date row))
      (generate_monthly_schedule three_year_loan) =
  [ (1, ("Jan", 2024)); (2, ("Feb", 2024)); (3, ("Mar", 2024));
    (4, ("Apr", 2024)); (5, ("May", 2024)); (6, ("Jun", 2024));
    (7, ("Jul", 2024)); (8, ("Aug", 2024)); (9, ("Sep", 2024));
    (10, ("Oct", 2024)); (11, ("Nov", 2024)); (12, ("Dec", 2024));
    (25, ("Jan", 2025)); (26, ("Feb", 2025)); (27, ("Mar", 2025));
    (28, ("Apr", 2025)); (29, ("May", 2025)); (30, ("Jun", 2025));
    (31, ("Jul", 2025)); (32, ("Aug", 2025)); (33, ("Sep", 2025));
    (34, ("Oct", 2025)); (35, ("Nov", 2025)); (36, ("Dec", 2025)) ]%Z%string
  /\
  match advance_months jan_15_2024 24 with
  | Ok d => strftime_b_Y d = ("Jan"%string, 2026%Z)
  | Raise _ => False
  end.
Proof. split; vm_compute; reflexivity. Qed.

(** C10.  With an effective rate of zero and a term of at least one year,
    the monthly payment of the summary is the loan amount divided by the
    number of months and the total interest paid is zero. *)
Theorem interest_free_loan_pays_no_interest (inp : LoanInput)
  (res : MortgageSummary) :
  effective_rate_decimal inp == 0 ->
  (1 <= effective_term inp)%Z ->
  calculate_mortgage inp = Some res ->
  res_monthly_payment_pi res ==
    res_loan_amount res / inject_Z (total_months_of inp) /\
  res_total_interest_paid res == 0.
Proof.
  intros Hrate HT. unfold calculate_mortgage, calculate_mortgage_body.
  fold (loan_amount_of inp) (monthly_rate_of inp) (total_months_of inp).
  destruct (fixed_payment _ _ _) as [p|e] eqn:Hp; [|discriminate].
  cbn [bind].
  destruct (replace_year _ _) as [d|e]; [|discriminate]. cbn [bind].
  match goal with
  | |- context [bind ?m _] => destruct m as [d'|e]; [|discriminate]
  end.
  cbn [bind]. intro H. injection H as <-. cbn [res_monthly_payment_pi res_loan_amount
                            res_total_interest_paid].
  apply fixed_payment_inv in Hp.
  assert (Hr : monthly_rate_of inp == 0).
  { unfold monthly_rate_of. rewrite div_lit_12, Hrate. reflexivity. }
  destruct Hp as [(Hpos & _) | (_ & Hnz & Hp)]; [rewrite Hr in Hpos; discriminate|].
  split; [exact Hp|].
  unfold Num.of_int. rewrite sub_eq, mul_eq, Hp. field. exact Hnz.
Qed.

Lemma interest_free_loan_pays_no_interest_witness :
  match calculate_mortgage interest_free with
  | Some res =>
      res_monthly_payment_pi res ==
        res_loan_amount res / inject_Z (total_months_of interest_free) /\
      res_total_interest_paid res == 0
  | None => False
  end.
Proof.
  destruct (calculate_mortgage interest_free) as [res|] eqn:E.
  - apply (interest_free_loan_pays_no_interest interest_free res).
    + vm_compute. reflexivity.
    + vm_compute. discriminate.
    + exact E.
  - vm_compute in E. discriminate.
Defined.

(** * Further properties *)

(** ** When the summary is absent *)

Lemma make_date_raises (y m dd : Z) (e : exn) :
  make_date y m dd = Raise e ->
  e = ValueError /\ valid_date (mkDate y m dd) = false.
Proof.
  unfold make_date. destruct (valid_date (mkDate y m dd)); [discriminate|].
  intro H. split; [congruence | reflexivity].
Qed.

Lemma payoff_date_step (sd d : date) :
  exists d',
    (if (date_month sd =? 2)%Z && (date_day sd =? 29)%Z then
       match replace_day d 28 with
       | Ok x => Ok x
       | Raise ValueError => Ok d
       | Raise e => Raise e
       end
     else Ok d) = Ok d' /\
    date_year d' = date_year d /\ date_month d' = date_month d.
Proof.
  destruct ((date_month sd =? 2)%Z && (date_day sd =? 29)%Z).
  - unfold replace_day, make_date.
    destruct (valid_date (mkDate (date_year d) (date_month d) 28)).
    + eexists. split; [reflexivity | split; reflexivity].
    + exists d. repeat split.
  - exists d. repeat split.
Qed.

Lemma calculate_mortgage_body_cases (inp : LoanInput) :
  (exists e, fixed_payment (loan_amount_of inp) (monthly_rate_of inp)
               (total_months_of inp) = Raise e /\
             calculate_mortgage inp = None) \/
  (exists p, fixed_payment (loan_amount_of inp) (monthly_rate_of inp)
               (total_months_of inp) = Ok p /\
             replace_year (start_date inp)
               (date_year (start_date inp) + effective_term inp)
             = Raise ValueError /\
             calculate_mortgage inp = None) \/
  (exists p d res,
      fixed_payment (loan_amount_of inp) (monthly_rate_of inp)
        (total_months_of inp) = Ok p /\
      replace_year (start_date inp)
        (date_year (start_date inp) + effective_term inp) = Ok d /\
      calculate_mortgage inp = Some res /\
      res_monthly_payment_pi res = p /\
      res_loan_amount res = loan_amount_of inp /\
      res_loan_payoff_date res =
        (month_abbr (date_month (start_date inp)),
         (date_year (start_date inp) + effective_term inp)%Z) /\
      res_total_interest_paid res =
        Num.sub (Num.mul p (Num.of_int (total_months_of inp)))
          (loan_amount_of inp)).
Proof.
  unfold calculate_mortgage, calculate_mortgage_body.
  fold (loan_amount_of inp) (monthly_rate_of inp) (total_months_of inp).
  destruct (fixed_payment _ _ _) as [p|e] eqn:Hp.
  2:{ left. exists e. split; reflexivity. }
  right. cbn [bind].
  destruct (replace_year (start_date inp)
              (date_year (start_date inp) + effective_term inp))
    as [d|e] eqn:Hd.
  2:{ left. exists p. apply make_date_raises in Hd. destruct Hd as [-> _].
      repeat split. }
  right. cbn [bind].
  destruct (payoff_date_step (start_date inp) d) as (d' & Hs & Hy & Hm).
  rewrite Hs. cbn [bind].
  exists p, d. eexists. split; [reflexivity|]. split; [reflexivity|].
  split; [reflexivity|].
  cbn [res_monthly_payment_pi res_loan_amount res_loan_payoff_date
       res_total_interest_paid strftime_b_Y].
  unfold replace_year, make_date in Hd.
  destruct (valid_date _) in Hd; [|discriminate].
  injection Hd as <-. cbn [date_year date_month] in Hy, Hm.
  unfold strftime_b_Y. rewrite Hy, Hm.
  repeat split.
Qed.

(** X1.  When the payment formula raises, the summary is absent.  When it
    returns a payment, the summary is absent exactly when the start date
    moved to the payoff year is not a calendar date: no other step of
    [calculate_mortgage] can fail. *)
Theorem summary_absent_iff_no_payoff_date (inp : LoanInput) :
  match fixed_payment (loan_amount_of inp) (monthly_rate_of inp)
          (total_months_of inp) with
  | Ok _ =>
      calculate_mortgage inp = None <->
      valid_date (mkDate (date_year (start_date inp) + effective_term inp)
                    (date_month (start_date inp)) (date_day (start_date inp)))
      = false
  | Raise _ => calculate_mortgage inp = None
  end.
Proof.
  destruct (calculate_mortgage_body_cases inp)
    as [(e & He & Hn) | [(p & Hp & Hd & Hn) | (p & d & res & Hp & Hd & Hs & _)]].
  - rewrite He. exact Hn.
  - rewrite Hp, Hn. split; [intros _ | reflexivity].
    now apply make_date_raises in Hd.
  - rewrite Hp, Hs. split; [discriminate|]. intro Hv.
    apply make_date_inv in Hd. congruence.
Qed.

Lemma leap_day_is_in_leap_year (sd : date) :
  valid_date sd = true -> date_month sd = 2%Z -> date_day sd = 29%Z ->
  is_leap (date_year sd) = true.
Proof.
  intros Hv Hm Hd. apply valid_date_iff in Hv. destruct Hv as (_ & _ & H).
  rewrite Hm, Hd in H. unfold days_in_month in H. cbn in H.
  destruct (is_leap (date_year sd)); [reflexivity | lia].
Qed.

Lemma leap_day_invalid_in_common_year (y : Z) :
  is_leap y = false -> valid_date (mkDate y 2 29) = false.
Proof.
  intro H. destruct (valid_date (mkDate y 2 29)) eqn:E; [|reflexivity].
  apply valid_date_iff in E. cbn [date_year date_month date_day] in E.
  unfold days_in_month in E. rewrite H in E. cbn in E. lia.
Qed.

Lemma year_after_leap_is_common (y : Z) :
  is_leap y = true -> is_leap (y + 1) = false.
Proof.
  unfold is_leap. intro H. apply andb_true_iff in H. destruct H as [H _].
  apply Z.eqb_eq in H.
  replace ((y + 1) mod 4 =? 0)%Z with false; [reflexivity|].
  symmetry. apply Z.eqb_neq.
  rewrite Z.add_mod by lia. rewrite H. cbn. lia.
Qed.

(** X2.  A loan that starts on 29 February has a summary only if its payoff year
    is a leap year: otherwise [start_date.replace(year=...)] raises and the
    result is [None], whatever the other inputs. *)
Theorem leap_day_start_needs_leap_payoff_year (inp : LoanInput) :
  date_month (start_date inp) = 2%Z -> date_day (start_date inp) = 29%Z ->
  is_leap (date_year (start_date inp) + effective_term inp) = false ->
  calculate_mortgage inp = None.
Proof.
  intros Hm Hd Hl.
  destruct (calculate_mortgage_body_cases inp)
    as [(e & _ & Hn) | [(p & _ & _ & Hn) | (p & d & res & _ & Hy & _)]];
    try exact Hn.
  apply make_date_inv in Hy. rewrite Hm, Hd in Hy.
  rewrite leap_day_invalid_in_common_year in Hy by exact Hl. discriminate.
Qed.

Lemma leap_day_start_needs_leap_payoff_year_witness :
  calculate_mortgage leap_day_one_year = None.
Proof.
  apply (leap_day_start_needs_leap_payoff_year leap_day_one_year);
    reflexivity.
Defined.

(** X3.  When there is a summary, its loan amount is home value minus down
    payment and its payoff label is the month of the start date with the
    year advanced by the effective term. *)
Theorem summary_loan_amount_and_payoff_label (inp : LoanInput)
  (res : MortgageSummary) :
  calculate_mortgage inp = Some res ->
  res_loan_amount res == home_value inp - down_payment inp /\
  res_loan_payoff_date res =
    (month_abbr (date_month (start_date inp)),
     (date_year (start_date inp) + effective_term inp)%Z) /\
  (1 <= date_year (start_date inp) + effective_term inp <= 9999)%Z.
Proof.
  intro H.
  destruct (calculate_mortgage_body_cases inp)
    as [(e & _ & Hn) | [(p & _ & _ & Hn)
       | (p & d & res' & _ & Hd & Hs & _ & HL & Hlab & _)]];
    try congruence.
  assert (res' = res) by congruence. subst res'.
  split; [rewrite HL; apply sub_eq | split; [exact Hlab|]].
  apply make_date_inv, valid_date_iff in Hd. cbn [date_year] in Hd. lia.
Qed.

Lemma summary_loan_amount_and_payoff_label_witness :
  match calculate_mortgage three_year_loan with
  | Some res =>
      res_loan_amount res == 400000 - 80000 /\
      res_loan_payoff_date res = ("Jan"%string, (2024 + 3)%Z) /\
      (1 <= 2024 + 3 <= 9999)%Z
  | None => False
  end.
Proof.
  destruct (calculate_mortgage three_year_loan) as [res|] eqn:E.
  - exact (summary_loan_amount_and_payoff_label three_year_loan res E).
  - vm_compute in E. discriminate.
Defined.

(** ** A start on 29 February and the yearly schedule *)

Lemma fill_remaining_raises (sd : date) (y : Z) (rest : list Z)
  (acc : list YearRow) :
  replace_year sd (date_year sd + y - 1) = Raise ValueError ->
  fill_remaining sd (y :: rest) acc = Raise ValueError.
Proof. intro H. cbn [fill_remaining]. now rewrite H. Qed.

Lemma yearly_loop_raises (r p : Q) (sd : date) (N y : Z) (rest : list Z)
  (B : Q) (acc : list YearRow) :
  replace_year sd (date_year sd + y - 1) = Raise ValueError ->
  yearly_loop r p sd N (y :: rest) B acc = Raise ValueError.
Proof.
  intro H. cbn [yearly_loop].
  destruct (year_months r p (range 0 12) (B, 0, 0)) as [[B' yi] yp].
  now rewrite H.
Qed.

(** X4.  With a start date of 29 February and a term of two years or more the
    yearly schedule is empty: the label of the second year is 29 February
    of a year that is not a leap year. *)
Theorem leap_day_start_yearly_schedule_empty (inp : LoanInput) :
  valid_date (start_date inp) = true ->
  date_month (start_date inp) = 2%Z -> date_day (start_date inp) = 29%Z ->
  (2 <= effective_term inp)%Z ->
  generate_yearly_schedule inp = [].
Proof.
  intros Hv Hm Hd HT.
  assert (Hraise : replace_year (start_date inp)
                     (date_year (start_date inp) + 2 - 1) = Raise ValueError).
  { unfold replace_year, make_date. rewrite Hm, Hd.
    rewrite leap_day_invalid_in_common_year; [reflexivity|].
    replace (date_year (start_date inp) + 2 - 1)%Z
      with (date_year (start_date inp) + 1)%Z by lia.
    now apply year_after_leap_is_common, leap_day_is_in_leap_year. }
  unfold generate_yearly_schedule, generate_yearly_schedule_body.
  destruct (calculate_mortgage inp); [|reflexivity].
  destruct (fixed_payment _ _ _) as [p|e]; [|reflexivity]. cbn [bind].
  rewrite (range_cons 1) by lia. change (1 + 1)%Z with 2%Z.
  cbn [yearly_loop].
  destruct (year_months _ p (range 0 12) _) as [[B' yi] yp].
  destruct (replace_year (start_date inp)
              (date_year (start_date inp) + 1 - 1)) as [d|e];
    [|reflexivity].
  cbn [bind]. change (1 + 1)%Z with 2%Z. rewrite (range_cons 2) by lia.
  destruct (Num.leb B' 0).
  - now rewrite fill_remaining_raises.
  - now rewrite yearly_loop_raises.
Qed.

Lemma leap_day_start_yearly_schedule_empty_witness :
  generate_yearly_schedule leap_day_four_years = [].
Proof.
  apply (leap_day_start_yearly_schedule_empty leap_day_four_years).
  - reflexivity.
  - reflexivity.
  - reflexivity.
  - vm_compute. discriminate.
Defined.

(** ** The schedules do not depend on the add-ons *)

Lemma calculate_mortgage_none_add_ons (inp : LoanInput)
  (tax pmi insurance hoa : Q) :
  calculate_mortgage (with_add_ons inp tax pmi insurance hoa) = None <->
  calculate_mortgage inp = None.
Proof.
  destruct (calculate_mortgage_body_cases inp)
    as [(e & He & Hn) | [(p & Hp & Hd & Hn) | (p & d & res & Hp & Hd & Hs & _)]];
  destruct (calculate_mortgage_body_cases
              (with_add_ons inp tax pmi insurance hoa))
    as [(e' & He' & Hn') | [(p' & Hp' & Hd' & Hn')
       | (p' & d' & res' & Hp' & Hd' & Hs' & _)]];
  change (loan_amount_of (with_add_ons inp tax pmi insurance hoa))
    with (loan_amount_of inp) in *;
  change (monthly_rate_of (with_add_ons inp tax pmi insurance hoa))
    with (monthly_rate_of inp) in *;
  change (total_months_of (with_add_ons inp tax pmi insurance hoa))
    with (total_months_of inp) in *;
  change (start_date (with_add_ons inp tax pmi insurance hoa))
    with (start_date inp) in *;
  change (effective_term (with_add_ons inp tax pmi insurance hoa))
    with (effective_term inp) in *;
  try congruence; rewrite ?Hn, ?Hn', ?Hs, ?Hs'; try tauto;
  split; congruence.
Qed.

(** X5.  Property tax, PMI rate, insurance and HOA fee have no effect on either
    schedule, not even on whether it is empty. *)
Theorem schedules_ignore_add_ons (inp : LoanInput)
  (tax pmi insurance hoa : Q) :
  generate_yearly_schedule (with_add_ons inp tax pmi insurance hoa) =
    generate_yearly_schedule inp /\
  generate_monthly_schedule (with_add_ons inp tax pmi insurance hoa) =
    generate_monthly_schedule inp.
Proof.
  pose proof (calculate_mortgage_none_add_ons inp tax pmi insurance hoa) as H.
  unfold generate_yearly_schedule, generate_yearly_schedule_body,
    generate_monthly_schedule, generate_monthly_schedule_body.
  destruct (calculate_mortgage (with_add_ons inp tax pmi insurance hoa));
    destruct (calculate_mortgage inp);
    try (split; reflexivity).
  - destruct H as [_ H]. specialize (H eq_refl). discriminate.
  - destruct H as [H _]. specialize (H eq_refl). discriminate.
Qed.

(** ** Overrides *)

Lemma effective_rate_resolved (inp : LoanInput) :
  effective_rate_decimal (resolve_overrides inp) = effective_rate_decimal inp.
Proof.
  unfold effective_rate_decimal, resolve_overrides.
  cbn [override_rate interest_rate].
  destruct (override_rate inp) as [r|]; [|reflexivity].
  now destruct (Num.gtb r 0).
Qed.

Lemma effective_term_resolved (inp : LoanInput) :
  effective_term (resolve_overrides inp) = effective_term inp.
Proof. reflexivity. Qed.

(** X6.  An override that is absent or not positive is ignored and a positive one
    replaces the base field, in the same way in the summary and in both
    schedules: the three functions give the results of the input whose base
    rate and term are the effective ones. *)
Theorem overrides_resolve_alike (inp : LoanInput) :
  calculate_mortgage (resolve_overrides inp) = calculate_mortgage inp /\
  generate_yearly_schedule (resolve_overrides inp) =
    generate_yearly_schedule inp /\
  generate_monthly_schedule (resolve_overrides inp) =
    generate_monthly_schedule inp.
Proof.
  assert (Hc : calculate_mortgage (resolve_overrides inp)
               = calculate_mortgage inp).
  { unfold calculate_mortgage, calculate_mortgage_body.
    rewrite effective_rate_resolved, effective_term_resolved. reflexivity. }
  split; [exact Hc|].
  unfold generate_yearly_schedule, generate_yearly_schedule_body,
    generate_monthly_schedule, generate_monthly_schedule_body.
  rewrite Hc, effective_rate_resolved, effective_term_resolved.
  split; reflexivity.
Qed.

(** ** The month step *)

(** X7.  On a calendar date the month step, when it succeeds, gives the calendar
    date of the same day one month later: December is followed by January of
    the next year. *)
Theorem next_month_advances_one_month (d d' : date) :
  valid_date d = true -> next_month d = Ok d' ->
  valid_date d' = true /\
  date_day d' = date_day d /\
  month_index d' = (month_index d + 1)%Z /\
  (date_month d = 12%Z ->
   date_month d' = 1%Z /\ date_year d' = (date_year d + 1)%Z) /\
  (date_month d <> 12%Z ->
   date_month d' = (date_month d + 1)%Z /\ date_year d' = date_year d).
Proof.
  intros Hv H. apply valid_date_iff in Hv. unfold next_month in H.
  destruct (date_month d =? 12)%Z eqn:E.
  - apply Z.eqb_eq in E. unfold replace_year_month in H.
    pose proof (make_date_inv _ _ _ _ H) as Hv'.
    unfold make_date in H. rewrite Hv' in H. injection H as <-.
    unfold month_index. cbn [date_year date_month date_day].
    repeat split; try lia. exact Hv'.
  - apply Z.eqb_neq in E. unfold replace_month in H.
    pose proof (make_date_inv _ _ _ _ H) as Hv'.
    unfold make_date in H. rewrite Hv' in H. injection H as <-.
    unfold month_index. cbn [date_year date_month date_day].
    repeat split; try lia. exact Hv'.
Qed.

Lemma next_month_advances_one_month_witness :
  valid_date (mkDate 2024 12 15) = true /\
  next_month (mkDate 2024 12 15) = Ok (mkDate 2025 1 15) /\
  month_index (mkDate 2025 1 15) = (month_index (mkDate 2024 12 15) + 1)%Z.
Proof.
  assert (Hv : valid_date (mkDate 2024 12 15) = true) by reflexivity.
  assert (Hn : next_month (mkDate 2024 12 15) = Ok (mkDate 2025 1 15))
    by reflexivity.
  split; [exact Hv | split; [exact Hn|]].
  exact (proj1 (proj2 (proj2
           (next_month_advances_one_month _ _ Hv Hn)))).
Defined.

(** X8.  On a calendar date the month step raises exactly when the day does not
    exist in the next month, or when the date is in December of year 9999. *)
Theorem next_month_raises_iff (d : date) :
  valid_date d = true ->
  (next_month d = Raise ValueError <->
   (date_month d = 12 /\ date_year d = 9999)%Z \/
   (date_month d < 12 /\
    days_in_month (date_year d) (date_month d + 1) < date_day d)%Z).
Proof.
  intro Hv. apply valid_date_iff in Hv. destruct Hv as (Hy & Hm & Hd).
  unfold next_month. destruct (date_month d =? 12)%Z eqn:E.
  - apply Z.eqb_eq in E. unfold replace_year_month, make_date.
    destruct (valid_date _) eqn:V.
    + apply valid_date_iff in V. cbn [date_year date_month date_day] in V.
      split; [discriminate | lia].
    + split; [intros _ | reflexivity]. left. split; [exact E|].
      destruct (Z.eq_dec (date_year d) 9999) as [|Hne]; [assumption|].
      exfalso. assert (V' : valid_date (mkDate (date_year d + 1) 1 (date_day d))
                            = true); [|congruence].
      apply valid_date_iff. cbn [date_year date_month date_day].
      rewrite E in Hd. unfold days_in_month in *. cbn in *. lia.
  - apply Z.eqb_neq in E. unfold replace_month, make_date.
    destruct (valid_date _) eqn:V.
    + apply valid_date_iff in V. cbn [date_year date_month date_day] in V.
      split; [discriminate | lia].
    + split; [intros _ | reflexivity]. right. split; [lia|].
      destruct (Z_lt_le_dec (days_in_month (date_year d) (date_month d + 1))
                  (date_day d)) as [|Hle]; [assumption|].
      exfalso. assert (V' : valid_date (mkDate (date_year d)
                                          (date_month d + 1) (date_day d))
                            = true); [|congruence].
      apply valid_date_iff. cbn [date_year date_month date_day]. lia.
Qed.

Lemma next_month_raises_iff_witness :
  next_month (mkDate 2024 1 31) = Raise ValueError <->
  (1 = 12 /\ 2024 = 9999)%Z \/
  (1 < 12 /\ days_in_month 2024 (1 + 1) < 31)%Z.
Proof.
  apply (next_month_raises_iff (mkDate 2024 1 31)). reflexivity.
Defined.

(** ** The monthly schedule and the month step *)

Lemma run_advances_date (r p : Q) (show months : list Z) (B : Q) (d : date)
  (rows : list MonthRow) :
  monthly_run r p show months B d rows ->
  exists d', advance_months d (length rows) = Ok d'.
Proof.
  induction 1 as [B d | m rest B d rows E _ IH | m rest B d d' E Hn _
                  | m rest B d d' rows E Hn _ _ [d'' IH]].
  - exists d. reflexivity.
  - exact IH.
  - exists d'. cbn. exact Hn.
  - exists d''. cbn [length]. now rewrite (advance_months_shift d d').
Qed.

Lemma advance_months_fewer (d : date) (k j : nat) :
  (j <= k)%nat ->
  (exists d', advance_months d k = Ok d') ->
  exists d', advance_months d j = Ok d'.
Proof.
  intro Hj. induction k as [|k IH]; intros [d' H].
  - replace j with O by lia. now exists d'.
  - destruct (Nat.eq_dec j (S k)) as [->|Hne]; [now exists d'|].
    apply IH; [lia|]. cbn [advance_months] in H.
    destruct (advance_months d k) as [x|e]; [now exists x | discriminate].
Qed.

(** X9.  The monthly schedule has [k] rows only if the month step can be applied
    [k] times to the start date: the date is advanced after every row, the
    last one included, and an exception empties the schedule. *)
Theorem monthly_rows_need_month_steps (inp : LoanInput) :
  exists d,
    advance_months (start_date inp)
      (length (generate_monthly_schedule inp)) = Ok d.
Proof.
  destruct (monthly_schedule_run inp) as [-> | (p & _ & Hrun)].
  - exists (start_date inp). reflexivity.
  - exact (run_advances_date _ _ _ _ _ _ _ Hrun).
Qed.

Lemma run_has_two_rows (r p : Q) (show : list Z) (m1 m2 : Z) (rest : list Z)
  (B : Q) (d : date) (rows : list MonthRow) :
  in_list m1 show = true -> in_list m2 show = true ->
  0 < next_balance r p B ->
  monthly_run r p show (m1 :: m2 :: rest) B d rows ->
  (2 <= length rows)%nat.
Proof.
  intros E1 E2 Hpos Hrun. inversion Hrun; subst.
  - congruence.
  - match goal with H : Num.leb _ 0 = true |- _ =>
      apply leb_iff in H; lra end.
  - match goal with H : monthly_run _ _ _ (m2 :: rest) _ _ _ |- _ =>
      inversion H; subst; cbn [length]; try lia; congruence end.
Qed.

Lemma make_date_value (y m dd : Z) (d : date) :
  make_date y m dd = Ok d -> d = mkDate y m dd.
Proof.
  unfold make_date. destruct (valid_date (mkDate y m dd)); congruence.
Qed.

Lemma short_month (y m : Z) :
  (m = 2 \/ m = 4 \/ m = 6 \/ m = 9 \/ m = 11)%Z ->
  (days_in_month y m <= 30)%Z.
Proof.
  intro H. unfold days_in_month.
  destruct H as [-> | [-> | [-> | [-> | ->]]]]; cbn; try lia.
  destruct (is_leap y); lia.
Qed.

Lemma make_date_31_short_month (y m : Z) :
  (m = 2 \/ m = 4 \/ m = 6 \/ m = 9 \/ m = 11)%Z ->
  make_date y m 31 = Raise ValueError.
Proof.
  intro H. unfold make_date.
  destruct (valid_date (mkDate y m 31)) eqn:V; [|reflexivity].
  apply valid_date_iff in V. cbn [date_year date_month date_day] in V.
  pose proof (short_month y m H). lia.
Qed.

Lemma day_31_fails_in_two_steps (d : date) :
  valid_date d = true -> date_day d = 31%Z ->
  advance_months d 2 = Raise ValueError.
Proof.
  intros Hv Hd. apply valid_date_iff in Hv.
  destruct d as [y m dd]. cbn [date_year date_month date_day] in *. subst dd.
  destruct Hv as (Hy & Hm & Hdd).
  assert (Hcases : ((m = 2 \/ m = 4 \/ m = 6 \/ m = 9 \/ m = 11) \/
                    (m = 1 \/ m = 3 \/ m = 5 \/ m = 8 \/ m = 10) \/
                    m = 7 \/ m = 12)%Z) by lia.
  cbn [advance_months bind].
  unfold next_month at 1. cbn [date_year date_month date_day].
  destruct Hcases as [Hs | [Hl | [-> | ->]]].
  - pose proof (short_month y m Hs). lia.
  - replace (m =? 12)%Z with false by (symmetry; apply Z.eqb_neq; lia).
    unfold replace_month. cbn [date_year date_month date_day].
    rewrite make_date_31_short_month by lia. reflexivity.
  - cbn. unfold replace_month. cbn [date_year date_month date_day].
    destruct (make_date y 8 31) as [d'|e] eqn:E; [|now apply make_date_raises in E as [-> _]].
    apply make_date_value in E. subst d'. cbn [bind].
    unfold next_month, replace_month. cbn.
    now rewrite make_date_31_short_month by lia.
  - cbn. unfold replace_year_month. cbn [date_year date_month date_day].
    destruct (make_date (y + 1) 1 31) as [d'|e] eqn:E; [|now apply make_date_raises in E as [-> _]].
    apply make_date_value in E. subst d'. cbn [bind].
    unfold next_month, replace_month. cbn.
    now rewrite make_date_31_short_month by lia.
Qed.

(** X10.  With a term of one year or more and a loan that its first payment does
    not pay off, a start date on the 31st gives an empty monthly schedule:
    the date is advanced after each of the first two rows, and one of those
    two steps reaches a month without a 31st and raises. *)
Theorem day_31_start_empties_monthly_schedule (inp : LoanInput) (p : Q) :
  fixed_payment (loan_amount_of inp) (monthly_rate_of inp)
    (total_months_of inp) = Ok p ->
  0 < next_balance (monthly_rate_of inp) p (loan_amount_of inp) ->
  (1 <= effective_term inp)%Z ->
  valid_date (start_date inp) = true ->
  date_day (start_date inp) = 31%Z ->
  generate_monthly_schedule inp = [].
Proof.
  intros Hp Hpos HT Hv Hd.
  destruct (monthly_schedule_run inp) as [H | (p' & Hp' & Hrun)]; [exact H|].
  exfalso. assert (p' = p) by congruence. subst p'.
  assert (HT' : (12 <= total_months_of inp)%Z)
    by (unfold total_months_of; lia).
  pose proof (run_advances_date _ _ _ _ _ _ _ Hrun) as Hadv.
  rewrite (range_cons 1) in Hrun by lia. change (1 + 1)%Z with 2%Z in Hrun.
  rewrite (range_cons 2) in Hrun by lia.
  apply run_has_two_rows in Hrun.
  - apply (advance_months_fewer _ _ 2%nat Hrun) in Hadv.
    destruct Hadv as [d' Hadv].
    rewrite day_31_fails_in_two_steps in Hadv by assumption. discriminate.
  - apply in_list_iff, In_months_to_show. lia.
  - apply in_list_iff, In_months_to_show. lia.
  - exact Hpos.
Qed.

Lemma day_31_start_empties_monthly_schedule_witness :
  exists p,
    fixed_payment (loan_amount_of (loan 400000 80000 7 3 (mkDate 2024 1 31)))
      (monthly_rate_of (loan 400000 80000 7 3 (mkDate 2024 1 31)))
      (total_months_of (loan 400000 80000 7 3 (mkDate 2024 1 31))) = Ok p /\
    0 < next_balance
          (monthly_rate_of (loan 400000 80000 7 3 (mkDate 2024 1 31))) p
          (loan_amount_of (loan 400000 80000 7 3 (mkDate 2024 1 31))) /\
    generate_monthly_schedule (loan 400000 80000 7 3 (mkDate 2024 1 31)) = [].
Proof.
  eexists. split; [vm_compute; reflexivity|].
  split; [vm_compute; reflexivity|].
  eapply (day_31_start_empties_monthly_schedule
            (loan 400000 80000 7 3 (mkDate 2024 1 31))).
  - vm_compute. reflexivity.
  - vm_compute. reflexivity.
  - vm_compute. discriminate.
  - reflexivity.
  - reflexivity.
Defined.

(** ** The figures of the summary *)

(** X12.  The monthly add-ons of the summary are never negative when the PMI rate
    is not: a property tax or an insurance that is not positive counts for
    zero and PMI is charged on a positive loan amount only.  The total
    monthly payment is the sum of the five components, so it is at least the
    principal-and-interest payment plus the HOA fee. *)
Theorem add_ons_never_lower_the_payment (inp : LoanInput)
  (res : MortgageSummary) :
  0 <= pmi_rate inp ->
  calculate_mortgage inp = Some res ->
  0 <= res_property_tax_monthly res /\
  0 <= res_pmi_monthly res /\
  0 <= res_home_insurance_monthly res /\
  res_total_monthly_payment res ==
    res_monthly_payment_pi res + res_property_tax_monthly res +
    res_pmi_monthly res + res_home_insurance_monthly res + res_hoa_fee res /\
  res_monthly_payment_pi res + hoa_fee inp <= res_total_monthly_payment res.
Proof.
  intros Hpmi. unfold calculate_mortgage, calculate_mortgage_body.
  destruct (fixed_payment _ _ _) as [p|e]; [|discriminate]. cbn [bind].
  destruct (replace_year _ _) as [d|e]; [|discriminate]. cbn [bind].
  match goal with
  | |- context [bind ?m _] => destruct m as [d'|e]; [|discriminate]
  end.
  cbn [bind]. intro H. injection H as <-.
  cbn [res_property_tax_monthly res_pmi_monthly res_home_insurance_monthly
       res_total_monthly_payment res_monthly_payment_pi res_hoa_fee].
  assert (Htax : 0 <= (if Num.gtb (property_tax inp) 0
                       then Num.div_lit (property_tax inp) 12 else 0)).
  { destruct (Num.gtb (property_tax inp) 0) eqn:E; [|lra].
    apply gtb_iff in E. rewrite div_lit_12. lra. }
  assert (Hins : 0 <= (if Num.gtb (home_insurance inp) 0
                       then Num.div_lit (home_insurance inp) 12 else 0)).
  { destruct (Num.gtb (home_insurance inp) 0) eqn:E; [|lra].
    apply gtb_iff in E. rewrite div_lit_12. lra. }
  set (L := Num.sub (home_value inp) (down_payment inp)) in *.
  assert (Hp : 0 <= (if Num.gtb L 0
                     then Num.div_lit
                            (Num.mul L (Num.div_lit (pmi_rate inp) 100)) 12
                     else 0)).
  { destruct (Num.gtb L 0) eqn:E; [|lra].
    apply gtb_iff in E. rewrite div_lit_12, mul_eq, div_lit_100.
    assert (0 <= L * (pmi_rate inp * (1 # 100))) by nra. lra. }
  split; [exact Htax | split; [exact Hp | split; [exact Hins|]]].
  rewrite !add_eq. split; [reflexivity | lra].
Qed.

Lemma add_ons_never_lower_the_payment_witness :
  match calculate_mortgage three_year_loan with
  | Some res =>
      res_monthly_payment_pi res + hoa_fee three_year_loan
      <= res_total_monthly_payment res
  | None => False
  end.
Proof.
  destruct (calculate_mortgage three_year_loan) as [res|] eqn:E.
  - apply (add_ons_never_lower_the_payment three_year_loan res).
    + vm_compute. discriminate.
    + exact E.
  - vm_compute in E. discriminate.
Defined.

(** ** The "Calculate" handler *)

Lemma handler_effective_term (w : Widgets) :
  effective_term (handler_input w) =
  if (0 <? w_override_term w)%Z then w_override_term w
  else w_loan_term_years w.
Proof.
  unfold effective_term, handler_input, final_override_term.
  cbn [override_term loan_term_years].
  destruct (0 <? w_override_term w)%Z eqn:E; [|reflexivity].
  rewrite E. apply Z.ltb_lt in E.
  replace (w_override_term w =? 0)%Z with false; [reflexivity|].
  symmetry. apply Z.eqb_neq. lia.
Qed.

Lemma handler_effective_rate (w : Widgets) :
  effective_rate_decimal (handler_input w) ==
  (if Qle_bool (w_override_rate w) 0 then w_interest_rate w
   else w_override_rate w) / 100.
Proof.
  unfold effective_rate_decimal, handler_input, final_override_rate.
  cbn [override_rate interest_rate]. unfold Num.gtb, Num.ltb.
  destruct (Qle_bool (w_override_rate w) 0) eqn:E; cbn [negb].
  - apply div_lit_eq.
  - unfold Num.ltb. rewrite E. cbn [negb]. apply div_lit_eq.
Qed.

(** X13.  With widget values in range, the handler calls the engine with a term of
    at least one year (the override when it is positive, the main field
    otherwise) and a rate that is not negative.  It shows nothing when the
    payment formula raises; when the formula returns a payment, it shows
    nothing exactly when the start date moved to the payoff year is not a
    calendar date. *)
Theorem handler_term_and_rate_in_range (w : Widgets) :
  widgets_in_range w ->
  let inp := handler_input w in
  effective_term inp =
    (if (0 <? w_override_term w)%Z then w_override_term w
     else w_loan_term_years w) /\
  (1 <= effective_term inp)%Z /\
  0 <= effective_rate_decimal inp /\
  match fixed_payment (loan_amount_of inp) (monthly_rate_of inp)
          (total_months_of inp) with
  | Ok _ =>
      on_calculate w = None <->
      valid_date (mkDate (date_year (w_start_date w) + effective_term inp)
                    (date_month (w_start_date w)) (date_day (w_start_date w)))
      = false
  | Raise _ => on_calculate w = None
  end.
Proof.
  intros (Hor & Hot & _ & _ & Hr & Ht & _) inp.
  pose proof (handler_effective_term w) as Hterm. fold inp in Hterm.
  assert (HT : (1 <= effective_term inp)%Z).
  { rewrite Hterm. destruct (0 <? w_override_term w)%Z eqn:E; [|exact Ht].
    apply Z.ltb_lt in E. lia. }
  assert (Hrate : 0 <= effective_rate_decimal inp).
  { unfold inp. rewrite handler_effective_rate.
    destruct (Qle_bool (w_override_rate w) 0).
    - assert (H : w_interest_rate w / 100 == w_interest_rate w * (1 # 100))
        by field. rewrite H. lra.
    - assert (H : w_override_rate w / 100 == w_override_rate w * (1 # 100))
        by field. rewrite H. lra. }
  split; [exact Hterm | split; [exact HT | split; [exact Hrate|]]].
  unfold on_calculate. fold inp.
  change (w_start_date w) with (start_date inp).
  destruct (calculate_mortgage_body_cases inp)
    as [(e & He & Hn) | [(p & Hp & Hd & Hn) | (p & d & res & Hp & Hd & Hs & _)]].
  - rewrite He, Hn. reflexivity.
  - rewrite Hp, Hn. split; [intros _ | reflexivity].
    now apply make_date_raises in Hd.
  - rewrite Hp, Hs. split; [discriminate|]. intro Hv.
    apply make_date_inv in Hd. congruence.
Qed.

Lemma handler_term_and_rate_in_range_witness :
  widgets_in_range widgets_example /\
  effective_term (handler_input widgets_example) = 3%Z /\
  (1 <= effective_term (handler_input widgets_example))%Z /\
  0 <= effective_rate_decimal (handler_input widgets_example) /\
  (on_calculate widgets_example = None <->
   valid_date (mkDate (2024 + 3) 1 15) = false).
Proof.
  assert (H : widgets_in_range widgets_example).
  { unfold widgets_in_range. repeat split; vm_compute; congruence. }
  assert (Hp : exists p,
             fixed_payment (loan_amount_of (handler_input widgets_example))
               (monthly_rate_of (handler_input widgets_example))
               (total_months_of (handler_input widgets_example)) = Ok p)
    by (eexists; vm_compute; reflexivity).
  destruct Hp as [p Hp].
  split; [exact H|].
  destruct (handler_term_and_rate_in_range widgets_example H)
    as (H1 & H2 & H3 & H4).
  rewrite Hp in H4.
  split; [exact H1 | split; [exact H2 | split; [exact H3 | exact H4]]].
Defined.

(** ** The rows of the monthly schedule *)

Lemma monthly_row_interest (r p : Q) (m : Z) (d : date) (B : Q) :
  mr_interest (monthly_row r p m d B) = Num.mul B r.
Proof. unfold monthly_row. now destruct (Num.ltb _ 0). Qed.

Lemma monthly_row_principal (r p : Q) (m : Z) (d : date) (B : Q) :
  mr_principal (monthly_row r p m d B) == B - next_balance r p B.
Proof.
  unfold monthly_row, next_balance.
  destruct (Num.ltb _ 0); cbn [mr_principal]; num_norm; ring.
Qed.

Lemma monthly_row_payment (r p : Q) (m : Z) (d : date) (B : Q) :
  mr_principal (monthly_row r p m d B) + mr_interest (monthly_row r p m d B)
  <= p /\
  (0 <= B - (p - B * r) ->
   mr_principal (monthly_row r p m d B) + mr_interest (monthly_row r p m d B)
   == p).
Proof.
  unfold monthly_row.
  destruct (Num.ltb (Num.sub B (Num.sub p (Num.mul B r))) 0) eqn:E;
    cbn [mr_principal mr_interest].
  - apply ltb_iff in E. revert E. num_norm. intro E. split; [lra|].
    intro H. lra.
  - num_norm. split; [lra | intros _; ring].
Qed.

Lemma run_rows_shape (r p : Q) (show months : list Z) (B : Q) (d : date)
  (rows : list MonthRow) :
  monthly_run r p show months B d rows ->
  Forall (fun row =>
            exists j d',
              nth_error months j = Some (mr_month row) /\
              row = monthly_row r p (mr_month row) d'
                      (balance_after r p B j)) rows.
Proof.
  induction 1 as [B d | m rest B d rows E _ IH | m rest B d d' E _ _
                  | m rest B d d' rows E _ Hb _ IH].
  - constructor.
  - eapply Forall_impl; [|exact IH]. cbn beta.
    intros row (j & d' & Hj & Hrow). exists (S j), d'. split; [exact Hj|].
    now rewrite <- balance_after_shift.
  - constructor; [|constructor]. exists O, d.
    now rewrite monthly_row_month.
  - constructor.
    + exists O, d. now rewrite monthly_row_month.
    + eapply Forall_impl; [|exact IH]. cbn beta.
      intros row (j & d'' & Hj & Hrow). exists (S j), d''.
      split; [exact Hj|]. now rewrite <- balance_after_shift.
Qed.

Lemma unclamped_step (L r p : Q) (T : Z) (k : nat) :
  0 <= r -> (1 <= T)%Z -> fixed_payment L r T = Ok p ->
  0 < L -> (k < Z.to_nat T)%nat ->
  0 <= balance_after r p L k - (p - balance_after r p L k * r).
Proof.
  intros Hr HT Hp HL Hk.
  destruct (closed_form_exists L r p T Hr HT Hp)
    as (W & D & HW & H0 & Hs & Hpos & Hn & Hd).
  assert (Hc : balance_after r p L k * W == L * D k).
  { apply (balance_after_closed_form L r p W (Z.to_nat T) D HW H0 Hs Hpos Hn HL).
    lia. }
  apply Hs in Hc.
  assert (HD : 0 <= D (S k)).
  { destruct (Nat.eq_dec (S k) (Z.to_nat T)) as [->|Hne].
    - rewrite Hn. apply Qle_refl.
    - apply Qlt_le_weak, Hpos. lia. }
  nra.
Qed.

(** X14.  Every row of the monthly schedule is consistent with the balance before
    its month: the interest is that balance times the monthly rate, the
    principal is what the balance falls by, and principal plus interest is
    at most the monthly payment. *)
Theorem monthly_rows_account_for_balance (inp : LoanInput) (p : Q)
  (row : MonthRow) :
  fixed_payment (loan_amount_of inp) (monthly_rate_of inp)
    (total_months_of inp) = Ok p ->
  In row (generate_monthly_schedule inp) ->
  let before :=
    balance_after (monthly_rate_of inp) p (loan_amount_of inp)
      (Z.to_nat (mr_month row - 1)) in
  (1 <= mr_month row <= total_months_of inp)%Z /\
  mr_interest row == before * monthly_rate_of inp /\
  mr_principal row == before - mr_balance row /\
  mr_principal row + mr_interest row <= p.
Proof.
  intros Hp Hin.
  destruct (monthly_schedule_run inp) as [Hnil | (p' & Hp' & Hrun)].
  - rewrite Hnil in Hin. destruct Hin.
  - assert (p' = p) by congruence. subst p'.
    pose proof (run_rows_shape _ _ _ _ _ _ _ Hrun) as Hshape.
    rewrite Forall_forall in Hshape.
    destruct (Hshape row Hin) as (j & d' & Hj & Hrow).
    apply nth_error_range in Hj. destruct Hj as [Hj Hlt].
    replace (Z.to_nat (mr_month row - 1)) with j by lia.
    cbv zeta. split; [lia|].
    remember (mr_month row) as m eqn:Hm. clear Hm Hj Hlt Hin. subst row.
    rewrite monthly_row_balance, monthly_row_principal.
    split; [rewrite monthly_row_interest; apply mul_eq|].
    split; [reflexivity|].
    rewrite <- (monthly_row_principal _ p m d').
    apply monthly_row_payment.
Qed.

Lemma monthly_rows_account_for_balance_witness :
  exists p row,
    fixed_payment (loan_amount_of one_year_loan)
      (monthly_rate_of one_year_loan) (total_months_of one_year_loan)
    = Ok p /\
    In row (generate_monthly_schedule one_year_loan) /\
    mr_principal row ==
      balance_after (monthly_rate_of one_year_loan) p
        (loan_amount_of one_year_loan) (Z.to_nat (mr_month row - 1))
      - mr_balance row.
Proof.
  assert (Hp : exists p,
             fixed_payment (loan_amount_of one_year_loan)
               (monthly_rate_of one_year_loan)
               (total_months_of one_year_loan) = Ok p)
    by (eexists; vm_compute; reflexivity).
  assert (Hr : exists row rows,
             generate_monthly_schedule one_year_loan = row :: rows)
    by (do 2 eexists; vm_compute; reflexivity).
  destruct Hp as [p Hp]. destruct Hr as (row & rows & Hr).
  assert (Hin : In row (generate_monthly_schedule one_year_loan))
    by (rewrite Hr; now left).
  exists p, row. split; [exact Hp | split; [exact Hin|]].
  exact (proj1 (proj2 (proj2
           (monthly_rows_account_for_balance one_year_loan p row Hp Hin)))).
Defined.

(** *** Month and label of the row in a given position *)

Lemma nth_error_firstn_some {A : Type} (k i : nat) (l : list A) (x : A) :
  nth_error (firstn k l) i = Some x -> nth_error l i = Some x.
Proof.
  revert i l. induction k as [|k IH]; intros i l H.
  - destruct i; discriminate.
  - destruct l as [|a l]; [destruct i; discriminate|].
    destruct i as [|i]; [exact H|]. cbn in *. now apply IH.
Qed.

Lemma nth_error_months_to_show (T : Z) (i : nat) (m : Z) :
  nth_error (months_to_show T) i = Some m ->
  m = (if (i <? 12)%nat then Z.of_nat i + 1
       else Z.max (T - 11) 13 + (Z.of_nat i - 12))%Z.
Proof.
  unfold months_to_show. intro H.
  assert (Hlen : length (range 1 (Z.min 13 (T + 1)))
                 = Z.to_nat (Z.min 12 T)) by (rewrite length_range; lia).
  destruct (Nat.ltb_spec i (length (range 1 (Z.min 13 (T + 1)))))
    as [Hi|Hi].
  - rewrite nth_error_app1 in H by exact Hi.
    apply nth_error_range in H. destruct H as [-> _].
    replace (i <? 12)%nat with true; [lia|].
    symmetry. apply Nat.ltb_lt. lia.
  - rewrite nth_error_app2 in H by exact Hi.
    destruct (12 <? T)%Z eqn:E; [|destruct (i - _)%nat; discriminate].
    apply Z.ltb_lt in E. apply nth_error_range in H. destruct H as [-> _].
    replace (i <? 12)%nat with false; [lia|].
    symmetry. apply Nat.ltb_ge. lia.
Qed.

(** X16.  The row in position [i] (from 0) of the monthly schedule carries the
    month [i + 1] when [i < 12] and the month [T - 23 + i] afterwards, and
    in both cases the label of the start date advanced [i] times by the
    month step: the labels count rows, not months. *)
Theorem monthly_row_month_and_label (inp : LoanInput) (i : nat)
  (row : MonthRow) :
  (1 <= effective_term inp)%Z ->
  nth_error (generate_monthly_schedule inp) i = Some row ->
  mr_month row =
    (if (i <? 12)%nat then Z.of_nat i + 1
     else total_months_of inp - 23 + Z.of_nat i)%Z /\
  exists d, advance_months (start_date inp) i = Ok d /\
            mr_date row = strftime_b_Y d.
Proof.
  intros HT Hi. split.
  - destruct (monthly_schedule_prefix inp) as [k Hk].
    assert (Hm : nth_error (map mr_month (generate_monthly_schedule inp)) i
                 = Some (mr_month row)) by (now apply map_nth_error).
    rewrite Hk in Hm. apply nth_error_firstn_some in Hm.
    pose proof (nth_error_Some (months_to_show (total_months_of inp)) i)
      as Hlen.
    assert (Hlt : (i < length (months_to_show (total_months_of inp)))%nat)
      by (apply Hlen; congruence).
    apply nth_error_months_to_show in Hm. rewrite Hm.
    destruct (i <? 12)%nat eqn:E; [reflexivity|].
    apply Nat.ltb_ge in E.
    assert (Hsz := length_months_to_show (total_months_of inp)).
    unfold total_months_of in *. lia.
  - destruct (monthly_schedule_run inp) as [Hnil | (p & _ & Hrun)].
    + rewrite Hnil in Hi. destruct i; discriminate.
    + exact (run_labels_follow_rows _ _ _ _ _ _ _ Hrun i row Hi).
Qed.

Lemma monthly_row_month_and_label_witness :
  exists row,
    nth_error (generate_monthly_schedule one_year_loan) 11 = Some row /\
    mr_month row = (11 + 1)%Z /\
    exists d, advance_months jan_15_2024 11 = Ok d /\
              mr_date row = strftime_b_Y d.
Proof.
  assert (Hr : exists row,
             nth_error (generate_monthly_schedule one_year_loan) 11
             = Some row) by (eexists; vm_compute; reflexivity).
  destruct Hr as [row Hr]. exists row. split; [exact Hr|].
  apply (monthly_row_month_and_label one_year_loan 11 row).
  - vm_compute. discriminate.
  - exact Hr.
Defined.

(** ** The rows of the yearly schedule *)

Lemma balance_after_add (r p B : Q) (a b : nat) :
  balance_after r p (balance_after r p B a) b = balance_after r p B (a + b).
Proof.
  induction b as [|b IH].
  - now rewrite Nat.add_0_r.
  - rewrite Nat.add_succ_r. cbn [balance_after]. now rewrite IH.
Qed.

Lemma year_month_step_unclamped (r p B yi yp : Q) :
  0 <= B - (p - B * r) ->
  year_month_step r p (B, yi, yp) =
  (next_balance r p B,
   Num.add yi (Num.mul B r),
   Num.add yp (Num.sub p (Num.mul B r))).
Proof.
  intro H. unfold year_month_step, next_balance.
  replace (Num.ltb (Num.sub B (Num.sub p (Num.mul B r))) 0) with false;
    [reflexivity|].
  symmetry. apply ltb_false_iff. num_norm. exact H.
Qed.

Lemma year_months_full (r p : Q) (months : list Z) :
  forall B yi yp,
    (forall j, (j < length months)%nat ->
       0 < balance_after r p B j /\
       0 <= balance_after r p B j - (p - balance_after r p B j * r)) ->
    exists yi' yp',
      year_months r p months (B, yi, yp) =
        (balance_after r p B (length months), yi', yp') /\
      yp' == yp + (B - balance_after r p B (length months)) /\
      yi' + yp' == yi + yp + inject_Z (Z.of_nat (length months)) * p.
Proof.
  induction months as [|m rest IH]; intros B yi yp H.
  - exists yi, yp. cbn. repeat split; ring.
  - destruct (H O) as [Hpos Hun]; [cbn [length]; lia|].
    cbn [balance_after] in Hpos, Hun.
    cbn [year_months fst].
    replace (Num.leb B 0) with false
      by (symmetry; apply leb_false_iff; exact Hpos).
    rewrite year_month_step_unclamped by exact Hun.
    destruct (IH (next_balance r p B) (Num.add yi (Num.mul B r))
                (Num.add yp (Num.sub p (Num.mul B r))))
      as (yi' & yp' & Hy & Hp & Hs).
    { intros j Hj. rewrite !balance_after_shift. apply H. cbn [length]. lia. }
    exists yi', yp'. rewrite balance_after_shift in Hy, Hp.
    split; [exact Hy|]. cbn [length].
    destruct (next_balance_cases r p B) as [[Hneg _] | [_ Hnb]]; [lra|].
    split.
    + rewrite Hp. num_norm. rewrite Hnb. ring.
    + rewrite Hs. num_norm.
      rewrite Nat2Z.inj_succ, <- Z.add_1_r, inject_Z_plus.
      change (inject_Z 1) with 1. ring.
Qed.

Section YearlyRows.

Variables (L r p : Q) (sd : date) (N : Z).
Hypothesis balance_positive :
  forall k, (k < 12 * Z.to_nat N)%nat -> 0 < balance_after r p L k.
Hypothesis payment_not_cut :
  forall k, (k < 12 * Z.to_nat N)%nat ->
    0 <= balance_after r p L k - (p - balance_after r p L k * r).

Lemma yearly_loop_rows (n : nat) :
  forall (lo : Z) (acc rows : list YearRow),
    Z.to_nat (N + 1 - lo) = n -> (1 <= lo)%Z ->
    yearly_loop r p sd N (range lo (N + 1))
      (balance_after r p L (12 * Z.to_nat (lo - 1))) acc = Ok rows ->
    exists new,
      rows = acc ++ new /\ map yr_year new = range lo (N + 1) /\
      Forall (yearly_row_follows r p L sd) new.
Proof.
  induction n as [|n IH]; intros lo acc rows Hn Hlo H.
  - rewrite range_nil in * by lia. cbn in H. exists [].
    rewrite app_nil_r. repeat split; [congruence | constructor].
  - rewrite range_cons in * by lia. cbn [yearly_loop] in H.
    destruct (year_months_full r p (range 0 12)
                (balance_after r p L (12 * Z.to_nat (lo - 1))) 0 0)
      as (yi & yp & Hy & Hp & Hs).
    { intros j Hj. rewrite length_range in Hj.
      rewrite !balance_after_add.
      split; [apply balance_positive | apply payment_not_cut]; lia. }
    rewrite length_range in Hy, Hp, Hs.
    change (Z.to_nat (12 - 0)) with 12%nat in *.
    rewrite balance_after_add in Hy, Hp.
    replace (12 * Z.to_nat (lo - 1) + 12)%nat with (12 * Z.to_nat lo)%nat
      in Hy, Hp by lia.
    rewrite Hy in H.
    destruct (replace_year sd (date_year sd + lo - 1)) as [d|e] eqn:Hd;
      [|discriminate].
    cbn [bind] in H. apply make_date_value in Hd.
    assert (Hrow : yearly_row_follows r p L sd
                     {| yr_year := lo; yr_date := strftime_Y d;
                        yr_principal := yp; yr_interest := yi;
                        yr_balance := balance_after r p L (12 * Z.to_nat lo) |}).
    { unfold yearly_row_follows.
      cbn [yr_year yr_date yr_balance yr_principal yr_interest].
      split; [subst d; reflexivity|]. split; [reflexivity|].
      replace (Z.to_nat lo - 1)%nat with (Z.to_nat (lo - 1)) by lia.
      split; [rewrite Hp; ring|].
      rewrite Qplus_comm, Hs. change (inject_Z (Z.of_nat 12)) with 12. ring. }
    destruct (Num.leb (balance_after r p L (12 * Z.to_nat lo)) 0) eqn:E.
    + apply leb_iff in E.
      assert (lo = N).
      { destruct (Z.eq_dec lo N) as [|Hne]; [assumption|]. exfalso.
        assert (0 < balance_after r p L (12 * Z.to_nat lo))
          by (apply balance_positive; lia). lra. }
      subst lo. rewrite range_nil in H by lia. cbn [fill_remaining] in H.
      assert (Hrows : rows = acc ++ [ {| yr_year := N; yr_date := strftime_Y d;
                        yr_principal := yp; yr_interest := yi;
                        yr_balance := balance_after r p L (12 * Z.to_nat N) |} ])
        by congruence.
      eexists [_]. split; [exact Hrows|].
      rewrite (range_nil (N + 1)) by lia.
      split; [reflexivity | constructor; [exact Hrow | constructor]].
    + match type of H with
      | yearly_loop _ _ _ _ _ _ ?a = _ =>
          pose proof (IH (lo + 1)%Z a rows) as IH'
      end.
      replace (Z.to_nat (lo + 1 - 1)) with (Z.to_nat lo) in IH' by lia.
      destruct (IH' ltac:(lia) ltac:(lia) H) as (new & -> & Hm & Hf).
      eexists (_ :: new). rewrite <- app_assoc. split; [reflexivity|].
      split; [cbn; now rewrite Hm | constructor; [exact Hrow | exact Hf]].
Qed.

End YearlyRows.

Lemma yearly_schedule_as_loop (inp : LoanInput) (p : Q) :
  fixed_payment (loan_amount_of inp) (monthly_rate_of inp)
    (total_months_of inp) = Ok p ->
  generate_yearly_schedule inp = [] \/
  yearly_loop (monthly_rate_of inp) p (start_date inp) (effective_term inp)
    (range 1 (effective_term inp + 1)) (loan_amount_of inp) []
  = Ok (generate_yearly_schedule inp).
Proof.
  intro Hp. unfold generate_yearly_schedule, generate_yearly_schedule_body.
  destruct (calculate_mortgage inp); [|left; reflexivity].
  fold (loan_amount_of inp) (monthly_rate_of inp) (total_months_of inp).
  rewrite Hp. cbn [bind].
  destruct (yearly_loop _ _ _ _ _ _ _) as [rows|e];
    [right | left]; reflexivity.
Qed.

Lemma yearly_schedule_follows (inp : LoanInput) (p : Q) :
  down_payment inp < home_value inp ->
  0 <= interest_rate inp ->
  fixed_payment (loan_amount_of inp) (monthly_rate_of inp)
    (total_months_of inp) = Ok p ->
  generate_yearly_schedule inp = [] \/
  (1 <= effective_term inp)%Z /\
  map yr_year (generate_yearly_schedule inp) =
    range 1 (effective_term inp + 1) /\
  Forall (yearly_row_follows (monthly_rate_of inp) p (loan_amount_of inp)
            (start_date inp)) (generate_yearly_schedule inp).
Proof.
  intros HL Hr Hp.
  apply loan_amount_positive in HL. apply monthly_rate_nonneg in Hr.
  destruct (yearly_schedule_as_loop inp p Hp) as [Hnil | Hloop];
    [left; exact Hnil|].
  destruct (Z_lt_le_dec (effective_term inp) 1) as [HT|HT].
  - left. rewrite range_nil in Hloop by lia. cbn in Hloop. congruence.
  - right. split; [exact HT|].
    assert (HT' : (1 <= total_months_of inp)%Z)
      by (unfold total_months_of; lia).
    assert (Hn : Z.to_nat (total_months_of inp)
                 = (12 * Z.to_nat (effective_term inp))%nat)
      by (unfold total_months_of; lia).
    destruct (yearly_loop_rows (loan_amount_of inp) (monthly_rate_of inp) p
                (start_date inp) (effective_term inp))
      with (n := Z.to_nat (effective_term inp + 1 - 1)) (lo := 1%Z)
           (acc := @nil YearRow) (rows := generate_yearly_schedule inp)
      as (new & Hrows & Hm & Hf).
    + intros k Hk.
      apply (balance_stays_positive _ _ p (total_months_of inp));
        try assumption. lia.
    + intros k Hk.
      apply (unclamped_step _ _ p (total_months_of inp));
        try assumption. lia.
    + reflexivity.
    + lia.
    + exact Hloop.
    + cbn [app] in Hrows. rewrite Hrows. split; [exact Hm | exact Hf].
Qed.

(** X18.  With a positive loan amount and a rate >= 0 the two schedules agree: the
    row of year [y] of the yearly schedule and the row of month [12 * y] of
    the monthly schedule have the same ending balance. *)
Theorem schedules_agree_at_year_ends (inp : LoanInput) (yrow : YearRow)
  (mrow : MonthRow) :
  down_payment inp < home_value inp ->
  0 <= interest_rate inp ->
  In yrow (generate_yearly_schedule inp) ->
  In mrow (generate_monthly_schedule inp) ->
  mr_month mrow = (12 * yr_year yrow)%Z ->
  mr_balance mrow = yr_balance yrow.
Proof.
  intros HL Hr Hy Hm Heq.
  destruct (monthly_schedule_run inp) as [Hnil | (p & Hp & Hrun)].
  - rewrite Hnil in Hm. destruct Hm.
  - destruct (yearly_schedule_follows inp p HL Hr Hp)
      as [Hnil | (HT & _ & Hf)].
    + rewrite Hnil in Hy. destruct Hy.
    + rewrite Forall_forall in Hf. destruct (Hf yrow Hy) as (_ & Hb & _).
      pose proof (run_balances _ _ _ _ _ _ _ Hrun) as Hbal.
      rewrite Forall_forall in Hbal.
      destruct (Hbal mrow Hm) as (j & Hj & Hmb).
      apply nth_error_range in Hj. destruct Hj as [Hj _].
      rewrite Hmb, Hb. f_equal. lia.
Qed.

Lemma schedules_agree_at_year_ends_witness :
  exists yrow mrow,
    In yrow (generate_yearly_schedule one_year_loan) /\
    In mrow (generate_monthly_schedule one_year_loan) /\
    mr_month mrow = (12 * yr_year yrow)%Z /\
    mr_balance mrow = yr_balance yrow.
Proof.
  assert (H : exists yrow ys mrow,
            generate_yearly_schedule one_year_loan = yrow :: ys /\
            nth_error (generate_monthly_schedule one_year_loan) 11
            = Some mrow /\
            mr_month mrow = (12 * yr_year yrow)%Z).
  { do 3 eexists. split; [vm_compute; reflexivity|].
    split; vm_compute; reflexivity. }
  destruct H as (yrow & ys & mrow & Hy & Hm & Heq).
  assert (Hiy : In yrow (generate_yearly_schedule one_year_loan))
    by (rewrite Hy; now left).
  assert (Him : In mrow (generate_monthly_schedule one_year_loan))
    by exact (nth_error_In _ _ Hm).
  exists yrow, mrow.
  split; [exact Hiy | split; [exact Him | split; [exact Heq|]]].
  apply (schedules_agree_at_year_ends one_year_loan yrow mrow).
  - vm_compute. reflexivity.
  - vm_compute. discriminate.
  - exact Hiy.
  - exact Him.
  - exact Heq.
Defined.

Lemma yearly_schedule_rows_witness :
  map yr_year (generate_yearly_schedule (loan 80000 80000 7 3 jan_15_2024))
    = range 1 (3 + 1) /\
  Z.of_nat (length (generate_yearly_schedule
                      (loan 80000 80000 7 3 jan_15_2024))) = 3%Z /\
  zero_padded (generate_yearly_schedule (loan 80000 80000 7 3 jan_15_2024)).
Proof.
  apply (yearly_schedule_rows (loan 80000 80000 7 3 jan_15_2024)).
  - vm_compute. discriminate.
  - vm_compute. discriminate.
  - reflexivity.
  - vm_compute. intros [H _]. discriminate.
  - vm_compute. discriminate.
Defined.
